(* ===================================================================== *)
(* gaussian_process.py : Gaussian process regression (GaussianProcess,   *)
(* _MatrixDeterminant) embedded over exact arithmetic.                   *)
(*                                                                       *)
(* Scalars (tf.float32 in the source) are taken in an arbitrary real     *)
(* field R: rounding, infinities and NaN are outside the model.  The     *)
(* TensorFlow and numpy primitives the source calls are given their      *)
(* mathematical meaning; a TensorFlow graph node is embedded as the      *)
(* function that sess.run evaluates.                                     *)
(* ===================================================================== *)

From HB Require Import structures.
From mathcomp Require Import boot order algebra.

Set Implicit Arguments.
Unset Strict Implicit.
Unset Printing Implicit Defensive.

Import GRing.Theory Num.Theory Order.POrderTheory Order.TotalTheory.
Local Open Scope ring_scope.

(* --------------------------------------------------------------------- *)
(* Failures: a Python exception aborts the running method.               *)
(* --------------------------------------------------------------------- *)

Inductive exn : Type :=
  | ZeroDivisionError      (* n_samples / 0                              *)
  | IndexError             (* numpy index out of bounds                  *)
  | AttributeError         (* predict before any fit: self.Xf is missing *)
  | FailedPrecondition     (* a tf.Variable read before initialization   *)
  | InvalidArgument.       (* an op rejects its input (shape, inverse)   *)

Inductive result (T : Type) : Type :=
  | Ok of T
  | Raise of exn.

Arguments Raise {T} e.

Definition rbind {T U : Type} (r : result T) (k : T -> result U) : result U :=
  match r with
  | Ok x => k x
  | Raise e => Raise e
  end.

Notation "x <-- r ;; k" := (rbind r (fun x => k))
  (at level 100, r at next level, right associativity).

Definition is_ok {T : Type} (r : result T) : bool :=
  if r is Ok _ then true else false.

(* --------------------------------------------------------------------- *)
(* TensorFlow primitives used by the source.                             *)
(* --------------------------------------------------------------------- *)

Section TensorOps.

Variable R : realFieldType.

(* tf.square on a scalar *)
Definition tf_square (x : R) : R := x * x.

(* tf.ones([n]) *)
Definition tf_ones (n : nat) : 'rV[R]_n := \row_i 1.

(* tf.diag(v): the square matrix with v on its diagonal, 0 elsewhere *)
Definition tf_diag (n : nat) (v : 'rV[R]_n) : 'M[R]_n :=
  \matrix_(i, j) (if i == j then v 0 i else 0).

(* scalar * tensor (broadcast of the scalar over every entry) *)
Definition tf_bmul (m n : nat) (c : R) (A : 'M[R]_(m, n)) : 'M[R]_(m, n) :=
  \matrix_(i, j) (c * A i j).

(* (1,1)-tensor + scalar and scalar - vector (broadcast) *)
Definition tf_badd (m n : nat) (A : 'M[R]_(m, n)) (c : R) : 'M[R]_(m, n) :=
  \matrix_(i, j) (A i j + c).

Definition tf_bsub (n : nat) (c : R) (v : 'rV[R]_n) : 'rV[R]_n :=
  \row_i (c - v 0 i).

(* tf.mul: entrywise product *)
Definition tf_mul (m n : nat) (A B : 'M[R]_(m, n)) : 'M[R]_(m, n) :=
  \matrix_(i, j) (A i j * B i j).

(* tf.reduce_sum(A, 1): sums along axis 1, one entry per row of A *)
Definition tf_reduce_sum_1 (m n : nat) (A : 'M[R]_(m, n)) : 'rV[R]_m :=
  \row_i (\sum_j A i j).

(* tf.reshape(v, [-1, 1]) of a rank-1 tensor of length n *)
Definition tf_reshape_col (n : nat) (v : 'rV[R]_n) : 'cV[R]_n := v^T.

Definition tf_transpose (m n : nat) (A : 'M[R]_(m, n)) : 'M[R]_(n, m) := A^T.

Definition tf_matmul (m n p : nat) (A : 'M[R]_(m, n)) (B : 'M[R]_(n, p)) :
  'M[R]_(m, p) := A *m B.

(* tf.matrix_determinant never fails. *)
Definition tf_matrix_determinant (n : nat) (A : 'M[R]_n) : R := \det A.

(* tf.matrix_inverse: the op rejects an input that has no inverse
   (InvalidArgument, Input is not invertible). *)
Definition tf_matrix_inverse (n : nat) (A : 'M[R]_n) : result 'M[R]_n :=
  if A \in unitmx then Ok (invmx A) else Raise InvalidArgument.

(* --------------------------------------------------------------------- *)
(* @tf.RegisterGradient("MatrixDeterminant")                             *)
(* --------------------------------------------------------------------- *)

(* The op a gradient function receives: its inputs and its outputs.      *)
Record operation (n : nat) : Type := Operation {
  op_inputs_0  : 'M[R]_n;
  op_outputs_0 : R
}.

(* The op node that tf.matrix_determinant(A) adds to the graph. *)
Definition MatrixDeterminant (n : nat) (A : 'M[R]_n) : operation n :=
  {| op_inputs_0 := A; op_outputs_0 := tf_matrix_determinant A |}.

(* return grad * op.outputs[0] * tf.transpose(tf.matrix_inverse(op.inputs[0])) *)
Definition _MatrixDeterminant (n : nat) (op : operation n) (grad : R) :
  result 'M[R]_n :=
  inv <-- tf_matrix_inverse (op_inputs_0 op) ;;
  Ok (tf_bmul (grad * op_outputs_0 op) (tf_transpose inv)).

End TensorOps.

(* --------------------------------------------------------------------- *)
(* numpy indexing on arrays held as the sequence of their rows.          *)
(* --------------------------------------------------------------------- *)

Section NumpyOps.

Variable T : Type.
Variable x0 : T.

(* a[idx] for an integer index array idx; an index past the end raises *)
Definition np_take (a : seq T) (idx : seq nat) : result (seq T) :=
  if all (fun i => (i < size a)%N) idx then Ok [seq nth x0 a i | i <- idx]
  else Raise IndexError.

(* a[lo:hi]; slice bounds are clipped to the array, never an error *)
Definition np_slice (a : seq T) (lo hi : nat) : seq T := drop lo (take hi a).

End NumpyOps.

(* Python 2 integer division n / d on non-negative ints *)
Definition py_div (n d : nat) : result nat :=
  if d == 0%N then Raise ZeroDivisionError else Ok (n %/ d)%N.

(* --------------------------------------------------------------------- *)
(* The tf.Variable objects of the graph.                                 *)
(* --------------------------------------------------------------------- *)

Inductive variable : Type :=
  | var_length_scales     (* self.kernel.length_scales *)
  | var_amp               (* self.kernel.amp           *)
  | var_noise.            (* self.noise                *)

Definition variable_eqb (x x' : variable) : bool :=
  match x, x' with
  | var_length_scales, var_length_scales => true
  | var_amp, var_amp => true
  | var_noise, var_noise => true
  | _, _ => false
  end.

(* x in var_list *)
Definition in_var_list (x : variable) (var_list : seq variable) : bool :=
  has (variable_eqb x) var_list.

(* --------------------------------------------------------------------- *)
(* class GaussianProcess                                                 *)
(* --------------------------------------------------------------------- *)

Section GaussianProcess.

Variable R : realFieldType.

(* n_dim: the column count of the placeholder self.X = [None, n_dim] *)
Variable n_dim : nat.

(* tf.log *)
Variable tf_log : R -> R.

(* a row of a design matrix *)
Notation point := 'rV[R]_n_dim.

(* The values held by the session for the graph's variables. *)
Record variables : Type := Variables {
  length_scales : 'rV[R]_n_dim;
  amp           : R;
  noise         : R
}.

(* Modelled from the spec: the Kernel class (module kernels, imported by
   the source with a star import) is not part of the source tree.  The
   spec gives a kernel as a parameterized function producing a covariance
   value between two input vectors, with a length scale per dimension and
   an amplitude held in variables; covariance(A, B) is the matrix of its
   values between the rows of A and the rows of B. *)
Record Kernel : Type := MkKernel {
  kernel_fun         : 'rV[R]_n_dim -> R -> point -> point -> R;
  init_length_scales : 'rV[R]_n_dim;
  init_amp           : R
}.

Definition covariance (k : Kernel) (v : variables) (A B : seq point) :
  'M[R]_(size A, size B) :=
  \matrix_(i, j) kernel_fun k (length_scales v) (amp v)
                   (tnth (in_tuple A) i) (tnth (in_tuple B) j).

(* A graph node over the placeholders self.X and self.y: what sess.run
   returns for it under the current variables and a feed_dict. *)
Definition cost_node : Type :=
  variables -> seq point -> seq R -> result 'M[R]_1.

(* An op that updates variables when run. *)
Definition train_node : Type :=
  variables -> seq point -> seq R -> result variables.

(* The optimizer argument: minimize(cost, var_list) builds the train op;
   the update rule itself is pluggable. *)
Definition Optimizer : Type := cost_node -> seq variable -> train_node.

Record GaussianProcess : Type := MkGaussianProcess {
  kernel      : Kernel;
  n_epochs    : nat;
  batch_size  : nat;
  noise_arg   : R;        (* the constructor's noise, initial value of self.noise *)
  train_noise : bool;
  optimizer   : Optimizer;
  verbose     : nat
}.

(* a fed value of the placeholder self.y = [None, 1], as the column that
   the graph multiplies with an n x n matrix; the row counts must agree *)
Definition col_of_seq (n : nat) (y : seq R) : 'cV[R]_n := \col_i nth 0 y i.

Definition as_col (n : nat) (y : seq R) : result 'cV[R]_n :=
  if size y == n then Ok (col_of_seq n y) else Raise InvalidArgument.

Section Graph.

Variable self : GaussianProcess.

(* self.K *)
Definition K (v : variables) (X : seq point) : 'M[R]_(size X) :=
  covariance (kernel self) v X X
  + tf_bmul (tf_square (noise v)) (tf_diag (tf_ones R (size X))).

(* self.K_inv *)
Definition K_inv (v : variables) (X : seq point) : result 'M[R]_(size X) :=
  tf_matrix_inverse (K v X).

(* self.cost *)
Definition cost : cost_node := fun v X y =>
  y_ <-- as_col (size X) y ;;
  K_inv_ <-- K_inv v X ;;
  Ok (tf_badd (tf_matmul (tf_matmul (tf_transpose y_) K_inv_) y_)
              (tf_log (tf_matrix_determinant (K v X)))).

(* var_list *)
Definition var_list : seq variable :=
  let var_list := [:: var_length_scales] in
  if train_noise self then rcons var_list var_noise else var_list.

(* self.train *)
Definition train : train_node := optimizer self cost var_list.

(* the initial value of every variable of the graph *)
Definition initial_values : variables :=
  {| length_scales := init_length_scales (kernel self);
     amp           := init_amp (kernel self);
     noise         := noise_arg self |}.

End Graph.

(* The fitted attributes self.Xf, self.yf, self.K_invf. *)
Record fitted : Type := Fitted {
  Xf     : seq point;
  yf     : seq R;
  K_invf : 'M[R]_(size Xf)
}.

Arguments Fitted : clear implicits.

(* The mutable state behind a GaussianProcess object: the variables of
   its session (None until they are initialized), the fitted attributes
   (None until fit has set them), and the history of the feeds of the
   train op that the session has run. *)
Record state : Type := State {
  sess_vars  : option variables;
  sess_steps : seq (seq point * seq R);
  attrs      : option fitted
}.

(* A method body: it may change the state and may raise; the state
   reached when an exception is raised stays. *)
Definition method (A : Type) : Type := state -> state * result A.

Definition ret (A : Type) (x : A) : method A := fun s => (s, Ok x).

Definition bind (A B : Type) (m : method A) (k : A -> method B) : method B :=
  fun s => let: (s', r) := m s in
           match r with
           | Ok x => k x s'
           | Raise e => (s', Raise e)
           end.

Definition lift (A : Type) (r : result A) : method A := fun s => (s, r).

Notation "x <~ m ;; k" := (bind m (fun x => k))
  (at level 100, m at next level, right associativity).
Notation "m ;;; k" := (bind m (fun _ => k))
  (at level 100, right associativity).

Section Methods.

Variable self : GaussianProcess.

(* self.sess.run(tf.initialize_all_variables()) *)
Definition sess_run_initialize_all_variables : method unit := fun s =>
  ({| sess_vars := Some (initial_values self);
      sess_steps := sess_steps s;
      attrs := attrs s |}, Ok tt).

(* self.sess.run(self.train, feed_dict={self.X: X, self.y: y}) *)
Definition sess_run_train (X : seq point) (y : seq R) : method unit := fun s =>
  match sess_vars s with
  | None => (s, Raise FailedPrecondition)
  | Some v =>
      match train self v X y with
      | Ok v' => ({| sess_vars := Some v';
                     sess_steps := rcons (sess_steps s) (X, y);
                     attrs := attrs s |}, Ok tt)
      | Raise e => (s, Raise e)
      end
  end.

(* self.sess.run(self.K_inv, feed_dict={self.X: X, self.y: y}) *)
Definition sess_run_K_inv (X : seq point) (y : seq R) :
  method 'M[R]_(size X) := fun s =>
  match sess_vars s with
  | None => (s, Raise FailedPrecondition)
  | Some v => (s, K_inv self v X)
  end.

(* self.K_invf = ...; self.Xf = X; self.yf = y *)
Definition set_fitted (f : fitted) : method unit := fun s =>
  ({| sess_vars := sess_vars s; sess_steps := sess_steps s;
      attrs := Some f |}, Ok tt).

(* for j in xrange(n_batches): ... *)
Fixpoint batch_loop (js : seq nat) (X : seq point) (y : seq R) : method unit :=
  match js with
  | [::] => ret tt
  | j :: js' =>
      let lo := (j * batch_size self)%N in
      let hi := ((j + 1) * batch_size self)%N in
      let mini_X := np_slice X lo hi in
      let mini_y := np_slice y lo hi in
      sess_run_train mini_X mini_y ;;;
      batch_loop js' X y
  end.

(* Shuffle the data: X = X[shuffle]; y = y[shuffle] *)
Definition shuffle_the_data (shuffle : seq nat) (X : seq point) (y : seq R) :
  result (seq point * seq R) :=
  X' <-- np_take 0 X shuffle ;;
  y' <-- np_take 0 y shuffle ;;
  Ok (X', y').

(* for i in xrange(self.n_epochs): ...
   np_random_permutation i n is what the i-th call of
   np.random.permutation(n) of this fit returns; the loop rebinds X and y,
   whose last values are the loop's result. *)
Fixpoint epoch_loop (np_random_permutation : nat -> nat -> seq nat)
    (n_samples n_batches : nat) (es : seq nat) (X : seq point) (y : seq R) :
    method (seq point * seq R) :=
  match es with
  | [::] => ret (X, y)
  | i :: es' =>
      Xy <~ lift (shuffle_the_data (np_random_permutation i n_samples) X y) ;;
      let: (X', y') := Xy in
      batch_loop (iota 0 n_batches) X' y' ;;;
      epoch_loop np_random_permutation n_samples n_batches es' X' y'
  end.

Definition fit (np_random_permutation : nat -> nat -> seq nat)
    (X : seq point) (y : seq R) : method unit :=
  sess_run_initialize_all_variables ;;;
  let n_samples := size X in
  n_batches <~ lift (py_div n_samples (batch_size self)) ;;
  Xy <~ epoch_loop np_random_permutation n_samples n_batches
          (iota 0 (n_epochs self)) X y ;;
  let: (X, y) := Xy in
  K_invf <~ sess_run_K_inv X y ;;
  set_fitted (Fitted X y K_invf).

(* predict returns two tensors; each is evaluated later by sess.run under
   the variables the session then holds. *)
Definition predict (s : state) (X : seq point) :
  result ((variables -> 'cV[R]_(size X)) * (variables -> 'cV[R]_(size X))) :=
  match attrs s with
  | None => Raise AttributeError
  | Some f =>
      yf_ <-- as_col (size (Xf f)) (yf f) ;;
      let K_ := fun v => covariance (kernel self) v X (Xf f) in
      let K_K_invf := fun v => tf_matmul (K_ v) (K_invf f) in
      let y_pred := fun v => tf_matmul (K_K_invf v) yf_ in
      let var := fun v =>
        tf_reshape_col
          (tf_bsub (tf_square (amp v))
                   (tf_reduce_sum_1 (tf_mul (K_K_invf v) (K_ v)))) in
      Ok (y_pred, var)
  end.

(* sess.run(t) for a tensor t returned by predict *)
Definition sess_run (A : Type) (t : variables -> A) (s : state) : result A :=
  match sess_vars s with
  | None => Raise FailedPrecondition
  | Some v => Ok (t v)
  end.

(* y_pred, var = gp.predict(X); y_pred = gp.sess.run(y_pred);
   var = gp.sess.run(var): what the callers of predict do with the two
   tensors *)
Definition predict_and_run (s : state) (X : seq point) :
  result ('cV[R]_(size X) * 'cV[R]_(size X)) :=
  t <-- predict s X ;;
  y_pred <-- sess_run t.1 s ;;
  var <-- sess_run t.2 s ;;
  Ok (y_pred, var).

(* the state after a sequence of fit calls, each with its own draws of
   np.random.permutation and its own data; a call that raises leaves the
   state it reached *)
Definition fit_calls (calls : seq ((nat -> nat -> seq nat) * seq point * seq R))
    (s : state) : state :=
  foldl (fun s c => let: (rng, X, y) := c in (fit rng X y s).1) s calls.

End Methods.

(* --------------------------------------------------------------------- *)
(* Contracts of the collaborators, as the properties state them.         *)
(* --------------------------------------------------------------------- *)

(* np.random.permutation(n) returns a permutation of range(n). *)
Definition permutation_source (np_random_permutation : nat -> nat -> seq nat) :
  Prop :=
  forall i n, perm_eq (np_random_permutation i n) (iota 0 n).

(* the variable x has the same value in v and v' *)
Definition var_unchanged (x : variable) (v v' : variables) : Prop :=
  match x with
  | var_length_scales => length_scales v' = length_scales v
  | var_amp => amp v' = amp v
  | var_noise => noise v' = noise v
  end.

(* The optimizer contract: a step updates the parameters of the list it
   was given and no other variable. *)
Definition optimizer_contract (opt : Optimizer) : Prop :=
  forall (c : cost_node) (vl : seq variable) v X y v',
    opt c vl v X y = Ok v' ->
    forall x, ~~ in_var_list x vl -> var_unchanged x v v'.

(* a symmetric positive semi-definite covariance function *)
Definition psd_kernel (k : point -> point -> R) : Prop :=
  (forall x x', k x x' = k x' x)
  /\ (forall (n : nat) (pts : 'I_n -> point) (c : 'I_n -> R),
        0 <= \sum_i \sum_j c i * c j * k (pts i) (pts j)).

(* a positive-definite matrix: symmetric with a positive quadratic form *)
Definition positive_definite (n : nat) (A : 'M[R]_n) : Prop :=
  A^T = A /\ (forall x : 'cV[R]_n, x != 0 -> 0 < (x^T *m A *m x) 0 0).

(* --------------------------------------------------------------------- *)
(* Sample collaborators.                                                 *)
(* --------------------------------------------------------------------- *)

(* A kernel whose covariance is amp^2 between any two inputs. *)
Definition constant_kernel : Kernel :=
  {| kernel_fun := fun _ a _ _ => a ^+ 2;
     init_length_scales := const_mx 1;
     init_amp := 1 |}.

(* A function that is no covariance: -1 between any two inputs. *)
Definition negative_kernel : Kernel :=
  {| kernel_fun := fun _ _ _ _ => -1;
     init_length_scales := const_mx 1;
     init_amp := 1 |}.

(* An update rule: it evaluates the cost on the fed batch and moves each
   variable of its list by rate * cost * value, no other variable. *)
Definition step_optimizer (rate : R) : Optimizer := fun c vl v X y =>
  cst <-- c v X y ;;
  let d := rate * cst 0 0 in
  Ok {| length_scales :=
          if in_var_list var_length_scales vl
          then length_scales v - d *: length_scales v else length_scales v;
        amp := if in_var_list var_amp vl then amp v - d * amp v else amp v;
        noise :=
          if in_var_list var_noise vl then noise v - d * noise v
          else noise v |}.

(* np.random.permutation that always returns range(n) reversed *)
Definition reversing_source : nat -> nat -> seq nat :=
  fun _ n => rev (iota 0 n).

(* a new object: nothing initialized, nothing fitted, no step run *)
Definition new_state : state :=
  {| sess_vars := None; sess_steps := [::]; attrs := None |}.

(* --------------------------------------------------------------------- *)
(* Notions used to reason about method bodies.                           *)
(* --------------------------------------------------------------------- *)

(* the property P of the state survives the method, raised or not *)
Definition preserves (P : state -> Prop) (A : Type) (m : method A) : Prop :=
  forall s, P s -> P (m s).1.

(* the outcome of the method and the variables it leaves depend on the
   state it starts from through the session's variables only *)
Definition vars_determined (A : Type) (m : method A) : Prop :=
  forall s1 s2, sess_vars s1 = sess_vars s2 ->
    sess_vars (m s1).1 = sess_vars (m s2).1 /\ (m s1).2 = (m s2).2.

(* the session holds initialized variables that satisfy Q *)
Definition vars_sat (Q : variables -> Prop) (s : state) : Prop :=
  exists v, sess_vars s = Some v /\ Q v.

(* the method leaves the fitted attributes as they are *)
Definition keeps_attrs (A : Type) (m : method A) : Prop :=
  forall s, attrs (m s).1 = attrs s.

(* --------------------------------------------------------------------- *)
(* The course of a fit, written out: the arrays of each epoch, and the   *)
(* variables along the training steps.  The properties relate fit to     *)
(* them.                                                                 *)
(* --------------------------------------------------------------------- *)

(* the two arrays indexed by one index array *)
Definition shuffled (shuffle : seq nat) (d : seq point * seq R) :
  seq point * seq R :=
  ([seq nth 0 d.1 i | i <- shuffle], [seq nth 0 d.2 i | i <- shuffle]).

(* the arrays X, y of the epochs es in turn, from the arrays d before the
   first: epoch i holds the arrays before it indexed by the i-th draw of
   np.random.permutation(n) *)
Fixpoint epochs_data (np_random_permutation : nat -> nat -> seq nat)
    (n : nat) (es : seq nat) (d : seq point * seq R) :
    seq (seq point * seq R) :=
  match es with
  | [::] => [::]
  | i :: es' =>
      let d' := shuffled (np_random_permutation i n) d in
      d' :: epochs_data np_random_permutation n es' d'
  end.

(* the variables after running the train op on each feed in turn, from
   the variables v, or the failure of the first step that raises *)
Fixpoint train_steps (self : GaussianProcess) (v : variables)
    (feeds : seq (seq point * seq R)) : result variables :=
  match feeds with
  | [::] => Ok v
  | fd :: feeds' =>
      v' <-- train self v fd.1 fd.2 ;;
      train_steps self v' feeds'
  end.

End GaussianProcess.

Arguments Fitted {R n_dim} Xf yf K_invf.

(* --------------------------------------------------------------------- *)
(* Sample models over the rationals, one input dimension.                *)
(* --------------------------------------------------------------------- *)

(* stands for tf.log where a concrete model needs one *)
Definition sample_log (x : rat) : rat := x - 1.

(* 2 epochs, batches of 2, noise 1 not trained, constant kernel *)
Definition sample_gp : GaussianProcess rat 1 :=
  {| kernel := constant_kernel rat 1;
     n_epochs := 2;
     batch_size := 2;
     noise_arg := 1;
     train_noise := false;
     optimizer := step_optimizer (1 / 100%:R);
     verbose := 0 |}.

(* 5 training rows *)
Definition sample_X : seq 'rV[rat]_1 :=
  [seq const_mx k%:R | k <- iota 0 5].

Definition sample_y : seq rat := [seq k%:R | k <- iota 0 5].

(* no epoch, noise 0, and a kernel that returns -1 *)
Definition degenerate_gp : GaussianProcess rat 1 :=
  {| kernel := negative_kernel rat 1;
     n_epochs := 0;
     batch_size := 1;
     noise_arg := 0;
     train_noise := false;
     optimizer := step_optimizer (1 / 100%:R);
     verbose := 0 |}.

(* no epoch, noise 0, constant kernel *)
Definition noiseless_gp : GaussianProcess rat 1 :=
  {| kernel := constant_kernel rat 1;
     n_epochs := 0;
     batch_size := 1;
     noise_arg := 0;
     train_noise := false;
     optimizer := step_optimizer (1 / 100%:R);
     verbose := 0 |}.

(* the same training row twice *)
Definition duplicate_X : seq 'rV[rat]_1 := [:: const_mx 3; const_mx 3].

Definition duplicate_y : seq rat := [:: 1; 2].

(* one training row *)
Definition single_X : seq 'rV[rat]_1 := [:: const_mx 3].

Definition single_y : seq rat := [:: 1].

(* the attributes of a model fitted to the sample data with the initial
   values of the variables, and a state that holds them *)
Definition sample_fitted : fitted rat 1 :=
  Fitted sample_X sample_y
    (invmx (K sample_gp (initial_values sample_gp) sample_X)).

Definition sample_state : state rat 1 :=
  {| sess_vars := Some (initial_values sample_gp);
     sess_steps := [::];
     attrs := Some sample_fitted |}.

(* two query rows *)
Definition sample_query : seq 'rV[rat]_1 := [:: const_mx 7; const_mx 8].

(* the sample model with one epoch *)
Definition one_epoch_gp : GaussianProcess rat 1 :=
  {| kernel := constant_kernel rat 1;
     n_epochs := 1;
     batch_size := 2;
     noise_arg := 1;
     train_noise := false;
     optimizer := step_optimizer (1 / 100%:R);
     verbose := 0 |}.

(* the sample model with batch_size 0 *)
Definition zero_batch_gp : GaussianProcess rat 1 :=
  {| kernel := constant_kernel rat 1;
     n_epochs := 2;
     batch_size := 0;
     noise_arg := 1;
     train_noise := false;
     optimizer := step_optimizer (1 / 100%:R);
     verbose := 0 |}.

(* the sample model with batch_size 7, more than the 5 sample rows *)
Definition oversized_batch_gp : GaussianProcess rat 1 :=
  {| kernel := constant_kernel rat 1;
     n_epochs := 2;
     batch_size := 7;
     noise_arg := 1;
     train_noise := false;
     optimizer := step_optimizer (1 / 100%:R);
     verbose := 0 |}.

(* 4 training rows: two full batches of the sample model *)
Definition even_X : seq 'rV[rat]_1 :=
  [seq const_mx k%:R | k <- iota 0 4].

Definition even_y : seq rat := [seq k%:R | k <- iota 0 4].

(* the initial values of the sample model with the sign of noise changed *)
Definition negated_noise_values : variables rat 1 :=
  {| length_scales := length_scales (initial_values sample_gp);
     amp := amp (initial_values sample_gp);
     noise := - noise (initial_values sample_gp) |}.

(* the sample fitted attributes with every target doubled *)
Definition doubled_fitted : fitted rat 1 :=
  Fitted sample_X [seq 2 * t | t <- sample_y]
    (invmx (K sample_gp (initial_values sample_gp) sample_X)).

Definition doubled_state : state rat 1 :=
  {| sess_vars := Some (initial_values sample_gp);
     sess_steps := [::];
     attrs := Some doubled_fitted |}.

(* ===================================================================== *)
(* Properties                                                            *)
(* ===================================================================== *)

Section TensorFacts.

Variable R : realFieldType.

Lemma tf_bmulE m n (c : R) (A : 'M[R]_(m, n)) : tf_bmul c A = c *: A.
Proof. by apply/matrixP => i j; rewrite !mxE. Qed.

Lemma tf_diag_ones n : tf_diag (tf_ones R n) = 1%:M.
Proof. by apply/matrixP => i j; rewrite !mxE; case: (i == j). Qed.

Lemma tf_matrix_inverse_unit n (A : 'M[R]_n) :
  A \in unitmx -> tf_matrix_inverse A = Ok (invmx A).
Proof. by rewrite /tf_matrix_inverse => ->. Qed.

Lemma tf_matrix_inverse_ok n (A B : 'M[R]_n) :
  tf_matrix_inverse A = Ok B -> A \in unitmx /\ B = invmx A.
Proof. by rewrite /tf_matrix_inverse; case: ifP => // _ [<-]. Qed.

(* Row i of a cofactor ignores row i of the matrix. *)
Lemma cofactor_row_perturb n (A : 'M[R]_n) (i j k : 'I_n) (e : R) :
  cofactor (A + e *: delta_mx i j) i k = cofactor A i k.
Proof.
rewrite /cofactor; congr (_ * \det _).
apply/matrixP => a b; rewrite !mxE.
by rewrite eq_sym (negbTE (neq_lift i a)) /= mulr0 addr0.
Qed.

(* The determinant is affine in each entry, with slope the cofactor. *)
Lemma det_entry_perturb n (A : 'M[R]_n) (i j : 'I_n) (e : R) :
  \det (A + e *: delta_mx i j) = \det A + e * cofactor A i j.
Proof.
rewrite (expand_det_row _ i) (expand_det_row A i).
under eq_bigr => k _ do rewrite cofactor_row_perturb !mxE eqxx /= mulrDl.
rewrite big_split /=; congr (_ + _).
rewrite (bigD1 j) //= eqxx mulr1 big1 ?addr0 // => k kj.
by rewrite (negbTE kj) mulr0 mul0r.
Qed.

Lemma cofactor_inverse n (A : 'M[R]_n) (i j : 'I_n) :
  A \in unitmx -> cofactor A i j = \det A * (invmx A)^T i j.
Proof. by move=> uA; rewrite /invmx uA !mxE mulrA divrr ?mul1r // -unitmxE. Qed.

(** C3: for a square matrix A that has an inverse and an upstream gradient
    g, the gradient function registered for MatrixDeterminant returns
    g * det(A) * transpose(inverse(A)); this is g times the gradient of
    det at A: changing the entry (i, j) of A by e changes det(A) by
    exactly e * det(A) * transpose(inverse(A))[i, j]. *)
Theorem MatrixDeterminant_gradient n (A : 'M[R]_n) (g : R) :
  A \in unitmx ->
  _MatrixDeterminant (MatrixDeterminant A) g = Ok (g * \det A *: (invmx A)^T)
  /\ (forall i j e,
        \det (A + e *: delta_mx i j) - \det A = e * (\det A * (invmx A)^T i j)).
Proof.
move=> uA; split.
  by rewrite /_MatrixDeterminant /= tf_matrix_inverse_unit //= tf_bmulE.
by move=> i j e; rewrite det_entry_perturb addrC addKr cofactor_inverse.
Qed.

End TensorFacts.

Lemma MatrixDeterminant_gradient_witness :
  (1%:M : 'M[rat]_2) \in unitmx
  /\ _MatrixDeterminant (MatrixDeterminant (1%:M : 'M[rat]_2)) 3
     = Ok (3 * \det (1%:M : 'M[rat]_2) *: (invmx 1%:M)^T).
Proof.
split; first exact: unitmx1.
exact: (proj1 (MatrixDeterminant_gradient 3 (unitmx1 _ _))).
Defined.

Section GaussianProcessFacts.

Variable R : realFieldType.
Variable n_dim : nat.
Variable tf_log : R -> R.

Notation point := 'rV[R]_n_dim.
Notation GaussianProcess := (GaussianProcess R n_dim).
Notation state := (state R n_dim).
Notation variables := (variables R n_dim).

Implicit Types (self : GaussianProcess) (s : state) (v : variables).
Implicit Types (X : seq point) (y : seq R).

Lemma as_col_ok n y : size y = n -> as_col n y = Ok (col_of_seq n y).
Proof. by rewrite /as_col => ->; rewrite eqxx. Qed.

Lemma K_formula self v X :
  K self v X = covariance (kernel self) v X X + noise v ^+ 2 *: 1%:M.
Proof. by rewrite /K tf_bmulE tf_diag_ones /tf_square expr2. Qed.

(** C1: the graph built by the constructor has K = kernel.covariance(X, X)
    + noise^2 * Identity(N) for a fed X of any number N of rows and any
    noise, and, where the fed y has N rows and K has an inverse, its cost
    evaluates to y^T * K^-1 * y + log(det(K)). *)
Theorem covariance_and_cost self v X y :
  K self v X = covariance (kernel self) v X X + noise v ^+ 2 *: 1%:M
  /\ (size y = size X -> K self v X \in unitmx ->
      cost tf_log self v X y
      = Ok ((col_of_seq (size X) y)^T *m invmx (K self v X)
              *m col_of_seq (size X) y
            + (tf_log (\det (K self v X)))%:M)).
Proof.
split; first exact: K_formula.
move=> sy uK; rewrite /cost as_col_ok //= /K_inv tf_matrix_inverse_unit //=.
congr Ok; apply/matrixP => i j.
by rewrite !mxE !ord1 eqxx mulr1n.
Qed.

Lemma predict_spec self s (f : fitted R n_dim) X :
  attrs s = Some f -> size (yf f) = size (Xf f) ->
  exists (y_pred var : variables -> 'cV[R]_(size X)),
    predict self s X = Ok (y_pred, var)
    /\ forall v,
         let Ks := covariance (kernel self) v X (Xf f) in
         let A := Ks *m K_invf f in
         y_pred v = A *m col_of_seq (size (Xf f)) (yf f)
         /\ forall i, var v i 0 = amp v ^+ 2 - \sum_j A i j * Ks i j.
Proof.
move=> fs sy; rewrite /predict fs as_col_ok //=.
eexists; eexists; split; first by [].
move=> v /=; split=> // i; rewrite !mxE /tf_square expr2.
by congr (_ - _); apply: eq_bigr => j _; rewrite !mxE.
Qed.

(** C2: on a fitted model, predict on a query X of M rows returns the mean
    A * y_train and the variance whose i-th entry is
    amp^2 - sum_j A[i,j] * K*[i,j], both of shape (M, 1), where
    K* = kernel.covariance(X, X_train) and A = K* * K_inv_train; the
    variance entry i is the diagonal entry (i, i) of amp^2 - A * K*^T and
    no entry for two distinct query points is returned. *)
Theorem predict_formula self s (f : fitted R n_dim) X :
  attrs s = Some f -> size (yf f) = size (Xf f) ->
  exists (y_pred var : variables -> 'cV[R]_(size X)),
    predict self s X = Ok (y_pred, var)
    /\ forall v,
         let Ks := covariance (kernel self) v X (Xf f) in
         let A := Ks *m K_invf f in
         [/\ y_pred v = A *m col_of_seq (size (Xf f)) (yf f),
             forall i, var v i 0 = amp v ^+ 2 - \sum_j A i j * Ks i j
           & forall i, var v i 0 = amp v ^+ 2 - (A *m Ks^T) i i].
Proof.
move=> fs sy; have [y_pred [var [pE pv]]] := predict_spec self X fs sy.
exists y_pred, var; split=> // v Ks A; have [mE vE] := pv v.
split=> // i; rewrite vE; congr (_ - _).
by rewrite [RHS]mxE; apply: eq_bigr => j _; rewrite !mxE.
Qed.

Lemma np_take_perm (T : Type) (x0 : T) (a : seq T) idx :
  perm_eq idx (iota 0 (size a)) ->
  np_take x0 a idx = Ok [seq nth x0 a i | i <- idx].
Proof.
move=> pidx; rewrite /np_take.
suff -> : all (fun i => (i < size a)%N) idx by [].
by apply/allP => i; rewrite (perm_mem pidx) mem_iota add0n.
Qed.

Lemma map_nth_zip (x0 : point) (y0 : R) X y idx :
  size y = size X -> all (fun i => (i < size X)%N) idx ->
  zip [seq nth x0 X i | i <- idx] [seq nth y0 y i | i <- idx]
  = [seq nth (x0, y0) (zip X y) i | i <- idx].
Proof.
move=> sy; elim: idx => [|i idx IH] //= /andP [iX /IH ->].
by rewrite nth_zip.
Qed.

Lemma map_nth_perm (T : eqType) (x0 : T) (a : seq T) idx :
  perm_eq idx (iota 0 (size a)) -> perm_eq [seq nth x0 a i | i <- idx] a.
Proof.
move=> pidx; rewrite (perm_trans (perm_map _ pidx)) //.
by rewrite map_nth_iota0 // take_size.
Qed.

Lemma shuffle_the_data_ok shuffle X y :
  size y = size X -> perm_eq shuffle (iota 0 (size X)) ->
  shuffle_the_data shuffle X y
  = Ok ([seq nth 0 X i | i <- shuffle], [seq nth 0 y i | i <- shuffle]).
Proof.
move=> sy pX; rewrite /shuffle_the_data np_take_perm //= np_take_perm //.
by rewrite sy.
Qed.

Lemma shuffled_zip shuffle X y :
  size y = size X -> perm_eq shuffle (iota 0 (size X)) ->
  zip [seq nth 0 X i | i <- shuffle] [seq nth 0 y i | i <- shuffle]
  = [seq nth (0, 0) (zip X y) i | i <- shuffle].
Proof.
move=> sy pX; apply: map_nth_zip => //.
by apply/allP => i; rewrite (perm_mem pX) mem_iota add0n.
Qed.

Lemma shuffled_zip_perm shuffle X y :
  size y = size X -> perm_eq shuffle (iota 0 (size X)) ->
  perm_eq (zip [seq nth 0 X i | i <- shuffle] [seq nth 0 y i | i <- shuffle])
          (zip X y).
Proof.
move=> sy pX; rewrite shuffled_zip //; apply: map_nth_perm.
by rewrite size_zip sy minnn.
Qed.

(* One shuffle: the same index array applied to X and to y keeps each
   (X row, y row) pair and permutes the rows. *)
Lemma shuffle_the_data_joint shuffle X y :
  size y = size X -> perm_eq shuffle (iota 0 (size X)) ->
  exists X' y',
    [/\ shuffle_the_data shuffle X y = Ok (X', y'),
        size X' = size X /\ size y' = size X,
        forall k, (k < size X)%N ->
          nth 0 X' k = nth 0 X (nth 0%N shuffle k)
          /\ nth 0 y' k = nth 0 y (nth 0%N shuffle k),
        zip X' y' = [seq nth (0, 0) (zip X y) i | i <- shuffle]
      & perm_eq X' X /\ perm_eq (zip X' y') (zip X y)].
Proof.
move=> sy pX.
have ss : size shuffle = size X by rewrite (perm_size pX) size_iota.
exists [seq nth 0 X i | i <- shuffle], [seq nth 0 y i | i <- shuffle].
split.
- exact: shuffle_the_data_ok.
- by rewrite !size_map.
- by move=> k kX; rewrite !(nth_map 0%N) ?ss.
- exact: shuffled_zip.
- split; first exact: map_nth_perm.
  exact: shuffled_zip_perm.
Qed.

(* ----- generic facts on method bodies ---------------------------------- *)

Lemma bindE A B (m : method R n_dim A) (k : A -> method R n_dim B) s :
  bind m k s = match (m s).2 with
               | Ok x => k x (m s).1
               | Raise e => ((m s).1, Raise e)
               end.
Proof. by rewrite /bind; case: (m s) => s' []. Qed.

Lemma preserves_bind P A B (m : method R n_dim A) (k : A -> method R n_dim B) :
  preserves P m -> (forall x, preserves P (k x)) -> preserves P (bind m k).
Proof.
move=> pm pk s Ps; rewrite bindE; case E: (m s).2 => [x|e] /=.
  exact/pk/pm.
exact: pm.
Qed.

Lemma preserves_lift P A (r : result A) : preserves P (@lift R n_dim A r).
Proof. by move=> s. Qed.

Lemma preserves_ret P A (x : A) : preserves P (@ret R n_dim A x).
Proof. by move=> s. Qed.

Lemma vars_determined_bind A B (m : method R n_dim A) (k : A -> method R n_dim B) :
  vars_determined m -> (forall x, vars_determined (k x)) ->
  vars_determined (bind m k).
Proof.
move=> dm dk s1 s2 e12; rewrite !bindE.
have [ev ->] := dm s1 s2 e12.
case: (m s2).2 => [x|e] //=; exact: dk.
Qed.

Lemma vars_determined_lift A (r : result A) : vars_determined (@lift R n_dim A r).
Proof. by move=> s1 s2. Qed.

Lemma vars_determined_ret A (x : A) : vars_determined (@ret R n_dim A x).
Proof. by move=> s1 s2. Qed.

Lemma keeps_attrs_bind A B (m : method R n_dim A) (k : A -> method R n_dim B) :
  keeps_attrs m -> (forall x, keeps_attrs (k x)) -> keeps_attrs (bind m k).
Proof.
move=> am ak s; rewrite bindE; case E: (m s).2 => [x|e] /=.
  by rewrite ak am.
exact: am.
Qed.

(* ----- a session step --------------------------------------------------- *)

Lemma sess_run_train_ok self X y s s' :
  sess_run_train tf_log self X y s = (s', Ok tt) ->
  exists v v',
    [/\ sess_vars s = Some v, train tf_log self v X y = Ok v'
      & s' = State (Some v') (rcons (sess_steps s) (X, y)) (attrs s)].
Proof.
rewrite /sess_run_train; case: (sess_vars s) => [v|] //.
case E: (train _ _ _ _ _) => [v'|e] // [<-].
by exists v, v'.
Qed.

Lemma sess_run_train_vars_determined self X y :
  vars_determined (sess_run_train tf_log self X y).
Proof.
move=> s1 s2 e12; rewrite /sess_run_train -e12.
case E: (sess_vars s1) => [v|] /=; last by [].
by case: (train _ _ _ _ _) => [v'|e] /=.
Qed.

Lemma sess_run_train_keeps_attrs self X y :
  keeps_attrs (sess_run_train tf_log self X y).
Proof.
move=> s; rewrite /sess_run_train.
case: (sess_vars s) => [v|] //.
by case: (train _ _ _ _ _).
Qed.

(* ----- contiguous slices ------------------------------------------------ *)

Lemma size_np_slice (T : Type) (a : seq T) (j b : nat) :
  ((j + 1) * b <= size a)%N ->
  size (np_slice a (j * b)%N ((j + 1) * b)%N) = b.
Proof.
move=> le; rewrite /np_slice size_drop size_takel //.
by rewrite mulnDl mul1n addKn.
Qed.

Lemma flatten_np_slices (T : Type) (a : seq T) (b nb : nat) :
  flatten [seq np_slice a (j * b)%N ((j + 1) * b)%N | j <- iota 0 nb]
  = take (nb * b)%N a.
Proof.
elim: nb => [|k IH]; first by rewrite mul0n take0.
rewrite -[k.+1]addn1 iotaD add0n map_cat flatten_cat IH /= cats0 /np_slice.
have <- : take (k * b) (take ((k + 1) * b) a) = take (k * b) a.
  by rewrite -take_min (minn_idPl _) // leq_mul2r leq_addr orbT.
exact: cat_take_drop.
Qed.

(* ----- the loops of fit ------------------------------------------------- *)

Local Notation minibatches b nb e :=
  [seq (np_slice e.1 (j * b)%N ((j + 1) * b)%N,
        np_slice e.2 (j * b)%N ((j + 1) * b)%N) | j <- iota 0 nb].

Lemma batch_loop_ok self js X y s s' :
  batch_loop tf_log self js X y s = (s', Ok tt) ->
  sess_steps s'
  = sess_steps s
    ++ [seq (np_slice X (j * batch_size self)%N ((j + 1) * batch_size self)%N,
             np_slice y (j * batch_size self)%N ((j + 1) * batch_size self)%N)
       | j <- js]
  /\ attrs s' = attrs s.
Proof.
elim: js s => [|j js IH] s /=; first by case=> <-; rewrite cats0.
rewrite bindE; case E: (sess_run_train _ _ _ _ _) => [s1 [[]|e]] //=.
have [v [v' [_ _ s1E]]] := sess_run_train_ok E.
by move/IH => [-> ->]; rewrite s1E /= -cats1 -catA.
Qed.

Lemma batch_loop_preserves P self js X y :
  (forall X' y', preserves P (sess_run_train tf_log self X' y')) ->
  preserves P (batch_loop tf_log self js X y).
Proof.
move=> pt; elim: js => [|j js IH] /=; first exact: preserves_ret.
by apply: preserves_bind => // _.
Qed.

Lemma batch_loop_vars_determined self js X y :
  vars_determined (batch_loop tf_log self js X y).
Proof.
elim: js => [|j js IH] /=; first exact: vars_determined_ret.
apply: vars_determined_bind; last by move=> _.
exact: sess_run_train_vars_determined.
Qed.

Lemma epoch_loop_preserves P self rng n nb es X y :
  (forall X' y', preserves P (sess_run_train tf_log self X' y')) ->
  preserves P (epoch_loop tf_log self rng n nb es X y).
Proof.
move=> pt; elim: es X y => [|i es IH] X y /=; first exact: preserves_ret.
apply: preserves_bind; first exact: preserves_lift.
case=> X' y'; apply: preserves_bind; first exact: batch_loop_preserves.
by move=> _; apply: IH.
Qed.

Lemma epoch_loop_vars_determined self rng n nb es X y :
  vars_determined (epoch_loop tf_log self rng n nb es X y).
Proof.
elim: es X y => [|i es IH] X y /=; first exact: vars_determined_ret.
apply: vars_determined_bind; first exact: vars_determined_lift.
case=> X' y'; apply: vars_determined_bind.
  exact: batch_loop_vars_determined.
by move=> _; apply: IH.
Qed.

Lemma epoch_loop_ok self rng es X y s s' Xy :
  permutation_source rng -> size y = size X ->
  epoch_loop tf_log self rng (size X) (size X %/ batch_size self) es X y s
  = (s', Ok Xy) ->
  exists eps : seq (seq point * seq R),
    [/\ size eps = size es,
        forall e, e \in eps ->
          [/\ size e.1 = size X, size e.2 = size X
            & perm_eq (zip e.1 e.2) (zip X y)],
        sess_steps s'
        = sess_steps s
          ++ flatten [seq minibatches (batch_size self)
                            (size X %/ batch_size self) e | e <- eps],
        Xy = last (X, y) eps
      & attrs s' = attrs s].
Proof.
move=> prng.
move: {-2}(size X) (erefl (size X)) => n.
elim: es X y s => [|i es IH] X y s nX sy /=.
  by rewrite /ret; case=> <- <-; exists [::]; split; rewrite //= cats0.
rewrite bindE /lift /= shuffle_the_data_ok -?nX //.
set X' := [seq nth 0 X k | k <- rng i n].
set y' := [seq nth 0 y k | k <- rng i n].
rewrite /= bindE.
case E: (batch_loop _ _ _ _ _ _) => [s1 [[]|e]] //=.
have [st1 at1] := batch_loop_ok E.
have sX' : n = size X' by rewrite size_map (perm_size (prng i n)) size_iota.
have sy' : size y' = n by rewrite size_map (perm_size (prng i n)) size_iota.
move/(IH _ _ _ sX' sy') => [eps [seps peps steps lst at2]].
have pz : perm_eq (zip X' y') (zip X y).
  by apply: shuffled_zip_perm; rewrite -?nX.
exists ((X', y') :: eps); split=> //=.
- by rewrite seps.
- move=> e; rewrite inE => /orP [/eqP -> /=|/peps [e1 e2 pe]].
    by split.
  by split=> //; apply: perm_trans pe pz.
- by rewrite steps st1 -catA.
- by rewrite at2.
Qed.

(* ----- fit --------------------------------------------------------------- *)

Lemma fit_ok self rng X y s s' :
  permutation_source rng -> size y = size X ->
  fit tf_log self rng X y s = (s', Ok tt) ->
  exists (eps : seq (seq point * seq R)) v Xn yn,
    [/\ (0 < batch_size self)%N /\ size eps = n_epochs self,
        (Xn, yn) = last (X, y) eps
        /\ (forall e, e \in eps ->
             [/\ size e.1 = size X, size e.2 = size X
               & perm_eq (zip e.1 e.2) (zip X y)]),
        sess_steps s'
        = sess_steps s
          ++ flatten [seq minibatches (batch_size self)
                            (size X %/ batch_size self) e | e <- eps],
        sess_vars s' = Some v /\ K self v Xn \in unitmx
      & attrs s' = Some (Fitted Xn yn (invmx (K self v Xn)))].
Proof.
move=> prng sy; rewrite /fit bindE /= bindE /lift /py_div /=.
case: eqP => [//|/eqP]; rewrite -lt0n => bpos /=.
rewrite bindE.
case E: (epoch_loop _ _ _ _ _ _ _ _ _) => [s1 [[Xn yn]|e]] //=.
have [eps [seps peps steps lst at1]] := epoch_loop_ok prng sy E.
rewrite bindE /sess_run_K_inv.
case V: (sess_vars s1) => [v|] //=.
case Ki: (K_inv self v Xn) => [Kinv|e] //= [<-] /=.
have [uK ->] := tf_matrix_inverse_ok Ki.
exists eps, v, Xn, yn; split=> //.
by rewrite seps size_iota.
Qed.

Lemma size_minibatch (b n : nat) (e : seq point * seq R) mb :
  (0 < b)%N -> size e.1 = n -> size e.2 = n ->
  mb \in minibatches b (n %/ b) e -> size mb.1 = b /\ size mb.2 = b.
Proof.
move=> bpos s1 s2 /mapP [j]; rewrite mem_iota add0n => /andP [_ jlt] -> /=.
have le : ((j + 1) * b <= n)%N.
  by rewrite addn1 (leq_trans _ (leq_trunc_div n b)) // leq_mul2r jlt orbT.
by rewrite !size_np_slice ?s1 ?s2.
Qed.

Lemma unzip_minibatches (b nb : nat) (e : seq point * seq R) :
  flatten [seq mb.1 | mb <- minibatches b nb e] = take (nb * b)%N e.1
  /\ flatten [seq mb.2 | mb <- minibatches b nb e] = take (nb * b)%N e.2.
Proof. by rewrite -!map_comp -!flatten_np_slices. Qed.

Lemma size_excluded (T : Type) (b : nat) (a : seq T) :
  size (drop (size a %/ b * b)%N a) = (size a %% b)%N.
Proof. by rewrite size_drop {1}(divn_eq (size a) b) addKn. Qed.

(** C4: a fit that returns has run exactly n_epochs epochs, one per
    shuffled copy of the full data, and in each epoch exactly
    floor(N / batch_size) optimizer steps, in order, on the contiguous
    slices [j * batch_size, (j + 1) * batch_size) of that epoch's shuffled
    arrays; each fed minibatch has exactly batch_size rows, together they
    are the first floor(N / batch_size) * batch_size rows of the shuffled
    order, and the N mod batch_size rows after them are fed to no step of
    that epoch. *)
Theorem fit_minibatch_schedule self rng X y s s' :
  permutation_source rng -> size y = size X ->
  fit tf_log self rng X y s = (s', Ok tt) ->
  let b := batch_size self in
  let n_batches := (size X %/ b)%N in
  exists epochs : seq (seq point * seq R),
    [/\ size epochs = n_epochs self,
        forall e, e \in epochs ->
          size e.1 = size X /\ perm_eq (zip e.1 e.2) (zip X y),
        sess_steps s'
        = sess_steps s
          ++ flatten [seq minibatches b n_batches e | e <- epochs],
        size (flatten [seq minibatches b n_batches e | e <- epochs])
        = (n_epochs self * n_batches)%N
      & forall e, e \in epochs ->
          [/\ size (minibatches b n_batches e) = n_batches,
              forall mb, mb \in minibatches b n_batches e ->
                size mb.1 = b /\ size mb.2 = b,
              flatten [seq mb.1 | mb <- minibatches b n_batches e]
              = take (n_batches * b)%N e.1
              /\ flatten [seq mb.2 | mb <- minibatches b n_batches e]
                 = take (n_batches * b)%N e.2
            & e.1 = take (n_batches * b)%N e.1 ++ drop (n_batches * b)%N e.1
              /\ size (drop (n_batches * b)%N e.1) = (size X %% b)%N]].
Proof.
move=> prng sy /(fit_ok prng sy).
move=> [eps [v [Xn [yn [[bpos seps] [_ peps] steps _ _]]]]] b n_batches.
exists eps; split=> //.
- by move=> e /peps [].
- rewrite -seps; elim: (eps) => //= e l IH.
  by rewrite size_cat size_map size_iota IH mulSn.
- move=> e /peps [e1 e2 _]; split.
  + by rewrite size_map size_iota.
  + by move=> mb; apply: size_minibatch.
  + exact: unzip_minibatches.
  + by rewrite cat_take_drop /n_batches -e1 size_excluded.
Qed.

(* ----- what training leaves unchanged ------------------------------------ *)

Lemma sess_run_train_vars_sat (Q : variables -> Prop) self X y :
  (forall v X' y' v', train tf_log self v X' y' = Ok v' -> Q v -> Q v') ->
  preserves (vars_sat Q) (sess_run_train tf_log self X y).
Proof.
move=> Qt s [v [sv Qv]]; rewrite /sess_run_train sv.
case E: (train _ _ _ _ _) => [v'|e] /=; last by exists v.
by exists v'; split=> //; apply: Qt E Qv.
Qed.

Lemma fit_vars_sat (Q : variables -> Prop) self rng X y s :
  Q (initial_values self) ->
  (forall v X' y' v', train tf_log self v X' y' = Ok v' -> Q v -> Q v') ->
  vars_sat Q (fit tf_log self rng X y s).1.
Proof.
move=> Q0 Qt; rewrite /fit bindE /=.
set s0 := State _ _ _.
have: vars_sat Q s0 by exists (initial_values self).
move: s0; apply: preserves_bind; first exact: preserves_lift.
move=> nb; apply: preserves_bind.
  by apply: epoch_loop_preserves => X' y'; apply: sess_run_train_vars_sat.
case=> Xn yn; apply: preserves_bind.
  by move=> s1; rewrite /sess_run_K_inv; case: (sess_vars s1).
by move=> Ki s1 [v [sv Qv]]; exists v.
Qed.

Lemma var_listE self :
  var_list self
  = var_length_scales :: (if train_noise self then [:: var_noise] else [::]).
Proof. by rewrite /var_list; case: (train_noise self). Qed.

Lemma train_frame self x v X y v' :
  optimizer_contract (optimizer self) -> ~~ in_var_list x (var_list self) ->
  train tf_log self v X y = Ok v' -> var_unchanged x v v'.
Proof. by move=> oc nx tr; apply: oc tr x nx. Qed.


(** C7: the list of variables handed to the optimizer is the kernel's
    length scales, followed by the noise exactly when train_noise is set;
    the amplitude is never in it.  With an optimizer that keeps its
    contract, every optimizer step leaves the amplitude as it was and
    after every fit call, returned or raised, the amplitude is the
    kernel's initial one; predict nevertheless reads the amplitude: its
    variance is amp^2 minus the data term. *)
Theorem amplitude_not_trained self :
  optimizer_contract (optimizer self) ->
  [/\ var_list self
      = var_length_scales
          :: (if train_noise self then [:: var_noise] else [::]),
      in_var_list var_noise (var_list self) = train_noise self
      /\ in_var_list var_amp (var_list self) = false,
      forall v X y v', train tf_log self v X y = Ok v' -> amp v' = amp v,
      forall rng X y s,
        exists v, sess_vars (fit tf_log self rng X y s).1 = Some v
                  /\ amp v = init_amp (kernel self)
    & forall s (f : fitted R n_dim) Xq,
        attrs s = Some f -> size (yf f) = size (Xf f) ->
        exists y_pred var,
          predict self s Xq = Ok (y_pred, var)
          /\ forall v i,
               var v i 0
               = amp v ^+ 2
                 - \sum_j (covariance (kernel self) v Xq (Xf f) *m K_invf f) i j
                          * covariance (kernel self) v Xq (Xf f) i j].
Proof.
move=> oc.
have namp : in_var_list var_amp (var_list self) = false.
  by rewrite var_listE; case: (train_noise self).
have tamp v X y v' : train tf_log self v X y = Ok v' -> amp v' = amp v.
  by move=> tr; apply: (@train_frame self var_amp) tr; rewrite ?namp.
split=> //.
- exact: var_listE.
- by split=> //; rewrite var_listE; case: (train_noise self).
- move=> rng X y s.
  apply: (@fit_vars_sat (fun v => amp v = init_amp (kernel self))) => //.
  by move=> v X' y' v' /tamp ->.
- move=> s f Xq fs sy.
  have [y_pred [var [pE pv]]] := predict_spec self Xq fs sy.
  by exists y_pred, var; split=> // v i; have [_ ->] := pv v.
Qed.

(** C10: for a model constructed with train_noise=False, whose optimizer
    keeps its contract, the noise variable is not in the optimizer's
    variable list, every fit starts from the variables' initial values
    whatever the session held, and after any non-empty sequence of fit
    calls, each returned or raised, the noise equals the constructor's
    noise argument. *)
Theorem noise_fixed_when_not_trained self calls s :
  train_noise self = false -> optimizer_contract (optimizer self) ->
  calls <> [::] ->
  [/\ in_var_list var_noise (var_list self) = false,
      forall rng X y s0,
        fit tf_log self rng X y s0
        = fit tf_log self rng X y
            (State (Some (initial_values self)) (sess_steps s0) (attrs s0))
    & exists v, sess_vars (fit_calls tf_log self calls s) = Some v
                /\ noise v = noise_arg self].
Proof.
move=> tn oc; have nn : in_var_list var_noise (var_list self) = false.
  by rewrite var_listE tn.
case/lastP: calls => [|calls [[rng X] y]] ne; first by case: ne.
split=> //.
rewrite /fit_calls -cats1 foldl_cat /=.
apply: (@fit_vars_sat (fun v => noise v = noise_arg self)) => //.
move=> v X' y' v' tr <-.
by apply: (@train_frame self var_noise) tr; rewrite ?nn.
Qed.

Lemma fit_prior_state self rng X y s1 s2 :
  [/\ (fit tf_log self rng X y s1).2 = (fit tf_log self rng X y s2).2,
      sess_vars (fit tf_log self rng X y s1).1
      = sess_vars (fit tf_log self rng X y s2).1
    & (fit tf_log self rng X y s1).2 = Ok tt ->
      attrs (fit tf_log self rng X y s1).1
      = attrs (fit tf_log self rng X y s2).1].
Proof.
rewrite /fit !bindE /=.
set s10 := State _ (sess_steps s1) _; set s20 := State _ (sess_steps s2) _.
case: (py_div _ _) => [nb|e] //=.
rewrite !bindE.
have [] := epoch_loop_vars_determined self rng (size X) nb
             (iota 0 (n_epochs self)) X y (s1 := s10) (s2 := s20) (erefl _).
case: (epoch_loop _ _ _ _ _ _ _ _ s10) => [s1' r1].
case: (epoch_loop _ _ _ _ _ _ _ _ s20) => [s2' r2] /= ev <-.
case: r1 => [[Xn yn]|e] //=.
rewrite !bindE /sess_run_K_inv -ev.
case V: (sess_vars s1') => [v|] /=; last by split.
by case: (K_inv self v Xn) => [Ki|e] /=; split.
Qed.

Lemma predict_reads_attrs self s1 s2 Xq :
  attrs s1 = attrs s2 -> predict self s1 Xq = predict self s2 Xq.
Proof. by rewrite /predict => ->. Qed.


(* ----- the predictive variance ------------------------------------------- *)

Lemma positive_definite_unit n (A : 'M[R]_n) :
  positive_definite A -> A \in unitmx.
Proof.
move=> [_ pd]; rewrite unitmxE unitfE; apply/negP => /det0P [w wn0 wA].
have := pd w^T; rewrite trmxK wA mul0mx mxE ltxx.
by rewrite -trmx0 (inj_eq trmx_inj) wn0 => /(_ isT).
Qed.

(* With w the solution of w * (G + sigma2 * I) = k*, where G is the Gram
   matrix of a positive semi-definite kernel on the training points, the
   Schur complement k(x, x) - w . k* is non-negative. *)
Lemma schur_complement_nonneg (k : point -> point -> R) (n : nat)
    (pt : 'I_n -> point) (xq : point) (a2 sigma2 : R) (w : 'I_n -> R) :
  psd_kernel k -> k xq xq = a2 -> 0 <= sigma2 ->
  (forall j, k xq (pt j) = \sum_i w i * k (pt i) (pt j) + sigma2 * w j) ->
  0 <= a2 - \sum_j w j * k xq (pt j).
Proof.
move=> [ksym kpsd] kxx s0 wK.
set S := \sum_j w j * k xq (pt j).
pose Q := \sum_i \sum_j w i * w j * k (pt i) (pt j).
have SE : S = Q + sigma2 * \sum_j w j ^+ 2.
  rewrite /S (eq_bigr _ (fun j _ => congr1 ( *%R (w j)) (wK j))).
  under eq_bigr => j _ do rewrite mulrDr mulr_sumr.
  rewrite big_split /= exchange_big /=; congr (_ + _).
    by apply: eq_bigr => i _; apply: eq_bigr => j _; rewrite mulrCA mulrA.
  by rewrite mulr_sumr; apply: eq_bigr => j _; rewrite mulrCA expr2.
have P : 0 <= a2 - S - S + Q.
  pose c (a : 'I_n.+1) := if unlift ord0 a is Some a' then - w a' else 1.
  pose p (a : 'I_n.+1) := if unlift ord0 a is Some a' then pt a' else xq.
  have := kpsd n.+1 p c.
  rewrite big_ord_recl big_ord_recl /c /p unlift_none /= mul1r mul1r kxx.
  under eq_bigr => b _ do rewrite liftK mul1r mulNr.
  rewrite sumrN -/S.
  under eq_bigr => a _ do rewrite big_ord_recl unlift_none liftK mulr1.
  under eq_bigr => a _ do
    under eq_bigr => b _ do rewrite liftK mulrNN.
  by rewrite big_split /= -/Q; under eq_bigr => a _ do rewrite ksym mulNr;
     rewrite sumrN -/S addrA.
have TE : sigma2 * \sum_j w j ^+ 2 = S - Q by rewrite SE [Q + _]addrC addrK.
have -> : a2 - S = (a2 - S - S + Q) + sigma2 * \sum_j w j ^+ 2.
  by rewrite TE addrA addrAC addrK subrK.
by rewrite addr_ge0 // mulr_ge0 // sumr_ge0 // => j _; rewrite sqr_ge0.
Qed.

Lemma K_solution self v Xq (Xt : seq point) (i : 'I_(size Xq)) (j : 'I_(size Xt)) :
  K self v Xt \in unitmx ->
  let k := kernel_fun (kernel self) (length_scales v) (amp v) in
  let w := covariance (kernel self) v Xq Xt *m invmx (K self v Xt) in
  k (tnth (in_tuple Xq) i) (tnth (in_tuple Xt) j)
  = \sum_l w i l * k (tnth (in_tuple Xt) l) (tnth (in_tuple Xt) j)
    + noise v ^+ 2 * w i j.
Proof.
move=> uK /=; set w := _ *m _.
have Kl l : K self v Xt l j
            = kernel_fun (kernel self) (length_scales v) (amp v)
                (tnth (in_tuple Xt) l) (tnth (in_tuple Xt) j)
              + noise v ^+ 2 * (l == j)%:R.
  by rewrite K_formula !mxE.
have := mulmxKV uK (covariance (kernel self) v Xq Xt).
move/matrixP => /(_ i j); rewrite -/w [RHS]mxE => <-.
rewrite mxE (eq_bigr _ (fun l _ => congr1 ( *%R (w i l)) (Kl l))).
under eq_bigr => l _ do rewrite mulrDr.
rewrite big_split /=; congr (_ + _).
rewrite (bigD1 j) //= eqxx mulr1n mulr1 mulrC big1 ?addr0 // => l lj.
by rewrite (negbTE lj) mulr0n mulr0 mulr0.
Qed.

(** C9: with a symmetric positive semi-definite kernel whose value at
    (x, x) is amp^2, a positive-definite training covariance K and the
    cached inverse equal to K^-1, each entry of the variance that predict
    returns, amp^2 - sum_j (K* K^-1)[i,j] * K*[i,j] with no clamping, is
    non-negative. *)
Theorem predictive_variance_nonneg self s (f : fitted R n_dim) Xq v :
  psd_kernel (kernel_fun (kernel self) (length_scales v) (amp v)) ->
  (forall x, kernel_fun (kernel self) (length_scales v) (amp v) x x
             = amp v ^+ 2) ->
  positive_definite (K self v (Xf f)) ->
  attrs s = Some f -> size (yf f) = size (Xf f) ->
  K_invf f = invmx (K self v (Xf f)) ->
  exists y_pred var,
    predict self s Xq = Ok (y_pred, var)
    /\ forall i,
         var v i 0
         = amp v ^+ 2
           - \sum_j (covariance (kernel self) v Xq (Xf f)
                       *m invmx (K self v (Xf f))) i j
                    * covariance (kernel self) v Xq (Xf f) i j
         /\ 0 <= var v i 0.
Proof.
move=> kpsd kxx /positive_definite_unit uK fs sy KiE.
have [y_pred [var [pE pv]]] := predict_spec self Xq fs sy.
exists y_pred, var; split=> // i; have [_ ->] := pv v; rewrite KiE.
split=> //.
under eq_bigr => j _ do rewrite [X in _ * X]mxE.
apply: (schur_complement_nonneg kpsd (kxx _) (sqr_ge0 (noise v))) => j.
exact: K_solution.
Qed.

(* ----- valid models: K is positive definite and fit returns -------------- *)

Lemma quadratic_formE n (A : 'M[R]_n) (x : 'cV[R]_n) :
  (x^T *m A *m x) 0 0 = \sum_i \sum_j x i 0 * x j 0 * A i j.
Proof.
rewrite mxE exchange_big /=; apply: eq_bigr => j _.
rewrite mxE mulr_suml; apply: eq_bigr => i _.
by rewrite mxE mulrAC.
Qed.

Lemma K_positive_definite self v X :
  psd_kernel (kernel_fun (kernel self) (length_scales v) (amp v)) ->
  noise v != 0 -> positive_definite (K self v X).
Proof.
move=> [ksym kpsd] nz; split.
  apply/matrixP => i j; rewrite K_formula !mxE ksym; congr (_ + _ * _%:R).
  by rewrite eq_sym.
move=> x xn0; rewrite quadratic_formE.
under eq_bigr => i _ do under eq_bigr => j _ do
  rewrite K_formula !mxE mulrDr.
under eq_bigr => i _ do rewrite big_split /=.
rewrite big_split /=; apply: ltr_wpDl; first exact: kpsd.
have xx i : \sum_j x i 0 * x j 0 * (noise v ^+ 2 * (i == j)%:R)
            = noise v ^+ 2 * x i 0 ^+ 2.
  rewrite (bigD1 i) //= eqxx mulr1n mulr1 mulrC -expr2 big1 ?addr0 // => j.
  by rewrite eq_sym => /negbTE ->; rewrite mulr0n mulr0 mulr0.
under eq_bigr => i _ do rewrite xx.
have /rV0Pn [i0 xi0] : x^T != 0 by rewrite -trmx0 (inj_eq trmx_inj).
rewrite (bigD1 i0) //=; apply: ltr_pwDl.
  by rewrite mulr_gt0 ?exprn_even_gt0 //=; move: xi0; rewrite mxE.
by apply: sumr_ge0 => i _; rewrite mulr_ge0 ?sqr_ge0.
Qed.

Lemma size_np_slice_eq (T U : Type) (a : seq T) (c : seq U) lo hi :
  size c = size a -> size (np_slice c lo hi) = size (np_slice a lo hi).
Proof. by move=> sc; rewrite /np_slice !size_drop !size_take sc. Qed.

Section FitReturns.

Variable self : GaussianProcess.
Variable Inv : variables -> Prop.
Hypothesis train_returns :
  forall v X y, Inv v -> size y = size X ->
    exists2 v', train tf_log self v X y = Ok v' & Inv v'.

Lemma batch_loop_returns js X y s :
  vars_sat Inv s -> size y = size X ->
  exists2 s', batch_loop tf_log self js X y s = (s', Ok tt) & vars_sat Inv s'.
Proof.
move=> + sy; elim: js s => [|j js IH] s Is /=; first by exists s.
rewrite bindE /sess_run_train; have [v [-> Iv]] := Is.
have [v' -> Iv'] := train_returns (X := np_slice X (j * batch_size self)%N
                                          ((j + 1) * batch_size self)%N)
                      Iv (size_np_slice_eq _ _ sy).
by apply: IH; exists v'.
Qed.

Lemma epoch_loop_returns rng n nb es X y s :
  permutation_source rng -> vars_sat Inv s -> size X = n -> size y = n ->
  exists s' Xy,
    epoch_loop tf_log self rng n nb es X y s = (s', Ok Xy) /\ vars_sat Inv s'.
Proof.
move=> prng; elim: es X y s => [|i es IH] X y s Is sX sy /=.
  by exists s, (X, y).
rewrite bindE /lift /= shuffle_the_data_ok ?sX ?sy //= bindE.
have ss : size (rng i n) = n by rewrite (perm_size (prng i n)) size_iota.
have [|s1 -> Is1 /=] := batch_loop_returns (iota 0 nb)
    (X := [seq nth 0 X k | k <- rng i n])
    (y := [seq nth 0 y k | k <- rng i n]) Is.
  by rewrite !size_map.
by apply: IH; rewrite // size_map.
Qed.

Lemma fit_returns rng X y s :
  (0 < batch_size self)%N -> permutation_source rng -> size y = size X ->
  Inv (initial_values self) ->
  (forall v X', Inv v -> K self v X' \in unitmx) ->
  exists s', fit tf_log self rng X y s = (s', Ok tt).
Proof.
move=> bpos prng sy I0 uK; rewrite /fit bindE /= bindE /lift /py_div.
rewrite eqn0Ngt bpos /= bindE.
set s0 := State _ _ _.
have Is0 : vars_sat Inv s0 by exists (initial_values self).
have [s1 [[Xn yn] [-> [v [sv Iv]]]] /=] :=
  epoch_loop_returns (size X %/ batch_size self) (iota 0 (n_epochs self))
    prng Is0 (erefl (size X)) sy.
rewrite bindE /sess_run_K_inv sv /= /K_inv tf_matrix_inverse_unit ?uK //=.
by eexists.
Qed.

End FitReturns.

(* ----- the sample collaborators ------------------------------------------ *)

Lemma constant_kernel_psd ls a :
  psd_kernel (kernel_fun (constant_kernel R n_dim) ls a).
Proof.
split=> // n pts c /=.
have -> : \sum_i \sum_j c i * c j * a ^+ 2 = (a * \sum_i c i) ^+ 2.
  rewrite [RHS]expr2 mulr_sumr mulr_suml; apply: eq_bigr => i _.
  rewrite mulr_sumr; apply: eq_bigr => j _.
  by rewrite expr2 mulrACA [c i * a]mulrC [c j * a]mulrC.
exact: sqr_ge0.
Qed.

Lemma step_optimizer_contract rate :
  optimizer_contract (@step_optimizer R n_dim rate).
Proof.
move=> c vl v X y v'; rewrite /step_optimizer.
case: (c v X y) => [cst|e] //= [<-] x.
by case: x => /negbTE /= ->.
Qed.

Lemma reversing_source_ok : permutation_source reversing_source.
Proof. by move=> i n; rewrite /reversing_source perm_rev. Qed.

Lemma step_train_returns self rate v X y :
  optimizer self = step_optimizer rate -> train_noise self = false ->
  (forall ls a, psd_kernel (kernel_fun (kernel self) ls a)) ->
  noise v != 0 -> size y = size X ->
  exists2 v', train tf_log self v X y = Ok v' & noise v' != 0.
Proof.
move=> oE tn kpsd nz sy.
have uK : K self v X \in unitmx.
  exact/positive_definite_unit/K_positive_definite.
rewrite /train oE /step_optimizer /cost as_col_ok //= /K_inv.
rewrite tf_matrix_inverse_unit //=.
by eexists; first by []; rewrite /= var_listE tn.
Qed.

Lemma step_fit_returns self rate rng X y s :
  optimizer self = step_optimizer rate -> train_noise self = false ->
  (forall ls a, psd_kernel (kernel_fun (kernel self) ls a)) ->
  noise_arg self != 0 -> (0 < batch_size self)%N ->
  permutation_source rng -> size y = size X ->
  exists s', fit tf_log self rng X y s = (s', Ok tt).
Proof.
move=> oE tn kpsd nz bpos prng sy.
apply: (@fit_returns self (fun v => noise v != 0)) => //.
  by move=> v X' y' nv sy'; apply: (step_train_returns oE tn kpsd nv sy').
by move=> v X' nv; apply/positive_definite_unit/K_positive_definite.
Qed.

(* ----- numerical failures ------------------------------------------------- *)

Lemma batch_loop_keeps_attrs self js X y :
  keeps_attrs (batch_loop tf_log self js X y).
Proof.
elim: js => [|j js IH] //=.
by apply: keeps_attrs_bind; first exact: sess_run_train_keeps_attrs.
Qed.

Lemma epoch_loop_keeps_attrs self rng n nb es X y :
  keeps_attrs (epoch_loop tf_log self rng n nb es X y).
Proof.
elim: es X y => [|i es IH] X y //=.
apply: keeps_attrs_bind => // -[X' y'].
by apply: keeps_attrs_bind; first exact: batch_loop_keeps_attrs.
Qed.

(* The outcomes of fit, case by case. *)
Lemma fit_cases self rng X y s :
  let s0 := State (Some (initial_values self)) (sess_steps s) (attrs s) in
  match py_div (size X) (batch_size self) with
  | Raise e => fit tf_log self rng X y s = (s0, Raise e)
  | Ok nb =>
      let r := epoch_loop tf_log self rng (size X) nb
                 (iota 0 (n_epochs self)) X y s0 in
      match r.2 with
      | Raise e => fit tf_log self rng X y s = (r.1, Raise e)
      | Ok (Xn, yn) =>
          match sess_vars r.1 with
          | None => fit tf_log self rng X y s = (r.1, Raise FailedPrecondition)
          | Some v =>
              if K self v Xn \in unitmx
              then fit tf_log self rng X y s
                   = (State (sess_vars r.1) (sess_steps r.1)
                        (Some (Fitted Xn yn (invmx (K self v Xn)))), Ok tt)
              else fit tf_log self rng X y s = (r.1, Raise InvalidArgument)
          end
      end
  end.
Proof.
rewrite /fit bindE /= bindE /lift /=.
case: (py_div _ _) => [nb|e] //=; rewrite bindE.
case: (epoch_loop _ _ _ _ _ _ _ _ _) => [s1 [[Xn yn]|e]] //=.
rewrite bindE /sess_run_K_inv; case E: (sess_vars s1) => [v|] //=.
by rewrite /K_inv /tf_matrix_inverse; case: ifP => -> //=; rewrite /set_fitted E.
Qed.

(* With no noise, a training row that occurs twice makes K singular,
   whatever the kernel. *)
Lemma K_duplicate_rows self v X (i1 i2 : 'I_(size X)) :
  i1 != i2 -> noise v = 0 ->
  tnth (in_tuple X) i1 = tnth (in_tuple X) i2 ->
  K self v X \notin unitmx.
Proof.
move=> ne nz eX; rewrite unitmxE unitfE negbK.
apply/eqP/(determinant_alternate ne) => j.
rewrite K_formula !mxE nz expr0n /= !mul0r !addr0.
by rewrite eX.
Qed.


End GaussianProcessFacts.

(* ===================================================================== *)
(* The properties on the sample models.                                  *)
(* ===================================================================== *)

(* fit returns on the sample model, from every state *)
Lemma sample_fit_returns s :
  fit sample_log sample_gp reversing_source sample_X sample_y s
  = ((fit sample_log sample_gp reversing_source sample_X sample_y s).1, Ok tt).
Proof.
have [s' ->] //:
  exists s', fit sample_log sample_gp reversing_source sample_X sample_y s
             = (s', Ok tt).
apply: (@step_fit_returns _ _ _ _ (1 / 100%:R)) => //.
- by move=> ls a; apply: constant_kernel_psd.
- exact: reversing_source_ok.
Qed.

(* the sample model's K is positive definite on every training set *)
Lemma sample_K_positive_definite X :
  positive_definite (K sample_gp (initial_values sample_gp) X).
Proof.
by apply: K_positive_definite; [exact: constant_kernel_psd | exact: oner_neq0].
Qed.

Lemma covariance_and_cost_witness :
  let v := initial_values sample_gp in
  [/\ size sample_y = size sample_X,
      K sample_gp v sample_X \in unitmx,
      K sample_gp v sample_X
      = covariance (kernel sample_gp) v sample_X sample_X
        + noise v ^+ 2 *: 1%:M
    & cost sample_log sample_gp v sample_X sample_y
      = Ok ((col_of_seq (size sample_X) sample_y)^T
              *m invmx (K sample_gp v sample_X)
              *m col_of_seq (size sample_X) sample_y
            + (sample_log (\det (K sample_gp v sample_X)))%:M)].
Proof.
move=> v.
have sy : size sample_y = size sample_X by [].
have uK : K sample_gp v sample_X \in unitmx.
  exact/positive_definite_unit/sample_K_positive_definite.
have [KE cE] := covariance_and_cost sample_log sample_gp v sample_X sample_y.
by split=> //; apply: cE.
Defined.

Lemma predict_formula_witness :
  let s := sample_state in
  let f := sample_fitted in
  let X := sample_query in
  [/\ attrs s = Some f, size (yf f) = size (Xf f)
    & exists (y_pred var : variables rat 1 -> 'cV[rat]_(size X)),
        predict sample_gp s X = Ok (y_pred, var)
        /\ forall v,
             let Ks := covariance (kernel sample_gp) v X (Xf f) in
             let A := Ks *m K_invf f in
             [/\ y_pred v = A *m col_of_seq (size (Xf f)) (yf f),
                 forall i, var v i 0 = amp v ^+ 2 - \sum_j A i j * Ks i j
               & forall i, var v i 0 = amp v ^+ 2 - (A *m Ks^T) i i]].
Proof.
move=> s f X; split=> //.
exact: (@predict_formula _ _ sample_gp s f X (erefl _) (erefl _)).
Defined.


Local Notation minibatches b nb e :=
  [seq (np_slice e.1 (j * b)%N ((j + 1) * b)%N,
        np_slice e.2 (j * b)%N ((j + 1) * b)%N) | j <- iota 0 nb].

Lemma fit_minibatch_schedule_witness :
  let self := sample_gp in
  let rng := reversing_source in
  let X := sample_X in
  let y := sample_y in
  let s := new_state rat 1 in
  let s' := (fit sample_log self rng X y s).1 in
  let b := batch_size self in
  let n_batches := (size X %/ b)%N in
  [/\ permutation_source rng, size y = size X,
      fit sample_log self rng X y s = (s', Ok tt)
    & exists epochs : seq (seq 'rV[rat]_1 * seq rat),
        [/\ size epochs = n_epochs self,
            forall e, e \in epochs ->
              size e.1 = size X /\ perm_eq (zip e.1 e.2) (zip X y),
            sess_steps s'
            = sess_steps s
              ++ flatten [seq minibatches b n_batches e | e <- epochs],
            size (flatten [seq minibatches b n_batches e | e <- epochs])
            = (n_epochs self * n_batches)%N
          & forall e, e \in epochs ->
              [/\ size (minibatches b n_batches e) = n_batches,
                  forall mb, mb \in minibatches b n_batches e ->
                    size mb.1 = b /\ size mb.2 = b,
                  flatten [seq mb.1 | mb <- minibatches b n_batches e]
                  = take (n_batches * b)%N e.1
                  /\ flatten [seq mb.2 | mb <- minibatches b n_batches e]
                     = take (n_batches * b)%N e.2
                & e.1 = take (n_batches * b)%N e.1
                          ++ drop (n_batches * b)%N e.1
                  /\ size (drop (n_batches * b)%N e.1) = (size X %% b)%N]]].
Proof.
move=> self rng X y s s' b n_batches.
have prng : permutation_source rng by exact: reversing_source_ok.
have sy : size y = size X by [].
have fE : fit sample_log self rng X y s = (s', Ok tt).
  exact: sample_fit_returns.
by split=> //; apply: (fit_minibatch_schedule prng sy fE).
Defined.

Lemma amplitude_not_trained_witness :
  let self := sample_gp in
  optimizer_contract (optimizer self)
  /\ [/\ var_list self
         = var_length_scales
             :: (if train_noise self then [:: var_noise] else [::]),
         in_var_list var_noise (var_list self) = train_noise self
         /\ in_var_list var_amp (var_list self) = false,
         forall v X y v',
           train sample_log self v X y = Ok v' -> amp v' = amp v,
         forall rng X y s,
           exists v, sess_vars (fit sample_log self rng X y s).1 = Some v
                     /\ amp v = init_amp (kernel self)
       & forall s (f : fitted rat 1) Xq,
           attrs s = Some f -> size (yf f) = size (Xf f) ->
           exists y_pred var,
             predict self s Xq = Ok (y_pred, var)
             /\ forall v i,
                  var v i 0
                  = amp v ^+ 2
                    - \sum_j (covariance (kernel self) v Xq (Xf f)
                                *m K_invf f) i j
                             * covariance (kernel self) v Xq (Xf f) i j].
Proof.
move=> self.
have oc : optimizer_contract (optimizer self).
  exact: step_optimizer_contract.
by split=> //; apply: (amplitude_not_trained sample_log oc).
Defined.

Lemma noise_fixed_when_not_trained_witness :
  let self := sample_gp in
  let calls := [:: (reversing_source, sample_X, sample_y);
                   (reversing_source, duplicate_X, duplicate_y)] in
  let s := new_state rat 1 in
  [/\ train_noise self = false, optimizer_contract (optimizer self),
      calls <> [::]
    & [/\ in_var_list var_noise (var_list self) = false,
          forall rng X y s0,
            fit sample_log self rng X y s0
            = fit sample_log self rng X y
                (State (Some (initial_values self)) (sess_steps s0)
                   (attrs s0))
        & exists v, sess_vars (fit_calls sample_log self calls s) = Some v
                    /\ noise v = noise_arg self]].
Proof.
move=> self calls s.
have tn : train_noise self = false by [].
have oc : optimizer_contract (optimizer self).
  exact: step_optimizer_contract.
have ne : calls <> [::] by [].
by split=> //; apply: (noise_fixed_when_not_trained sample_log s tn oc ne).
Defined.


Lemma predictive_variance_nonneg_witness :
  let self := sample_gp in
  let s := sample_state in
  let f := sample_fitted in
  let Xq := sample_query in
  let v := initial_values sample_gp in
  [/\ psd_kernel (kernel_fun (kernel self) (length_scales v) (amp v)),
      forall x, kernel_fun (kernel self) (length_scales v) (amp v) x x
                = amp v ^+ 2,
      positive_definite (K self v (Xf f)),
      [/\ attrs s = Some f, size (yf f) = size (Xf f)
        & K_invf f = invmx (K self v (Xf f))]
    & exists y_pred var,
        predict self s Xq = Ok (y_pred, var)
        /\ forall i,
             var v i 0
             = amp v ^+ 2
               - \sum_j (covariance (kernel self) v Xq (Xf f)
                           *m invmx (K self v (Xf f))) i j
                        * covariance (kernel self) v Xq (Xf f) i j
             /\ 0 <= var v i 0].
Proof.
move=> self s f Xq v.
have kp : psd_kernel (kernel_fun (kernel self) (length_scales v) (amp v)).
  exact: constant_kernel_psd.
have kd x : kernel_fun (kernel self) (length_scales v) (amp v) x x
            = amp v ^+ 2 by [].
have pd : positive_definite (K self v (Xf f)).
  exact: sample_K_positive_definite.
split=> //.
exact: (@predictive_variance_nonneg _ _ self s f Xq v kp kd pd
          (erefl _) (erefl _) (erefl _)).
Defined.


(* No noise and the same row twice: K has no inverse. *)
Lemma noiseless_K_singular :
  K noiseless_gp (initial_values noiseless_gp) duplicate_X \notin unitmx.
Proof.
by apply: (@K_duplicate_rows rat 1 noiseless_gp (initial_values noiseless_gp)
             duplicate_X (@Ordinal 2 0 isT) (@Ordinal 2 1 isT)).
Qed.


(* ===================================================================== *)
(* Edge behaviour of fit                                                 *)
(* ===================================================================== *)

Section FitEdges.

Variable R : realFieldType.
Variable n_dim : nat.
Variable tf_log : R -> R.

Local Notation point := 'rV[R]_n_dim.

Implicit Types (self : GaussianProcess R n_dim) (s : state R n_dim).
Implicit Types (X : seq point) (y : seq R) (rng : nat -> nat -> seq nat).

(* a fit that raises has not reached the assignments of its last lines *)
Lemma fit_raise_keeps_attrs self rng X y s e :
  (fit tf_log self rng X y s).2 = Raise e ->
  attrs (fit tf_log self rng X y s).1 = attrs s.
Proof.
have := fit_cases tf_log self rng X y s.
case: (py_div _ _) => [nb|e1] /=; last by move=> ->.
have := epoch_loop_keeps_attrs tf_log self rng (size X) nb
          (iota 0 (n_epochs self)) X y
          (State (Some (initial_values self)) (sess_steps s) (attrs s)).
case: (epoch_loop _ _ _ _ _ _ _ _ _) => [s1 [[Xn yn]|e1]] /= a1;
  last by move=> ->.
case: (sess_vars s1) => [v|]; last by move=> ->.
by case: ifP => _ -> //=.
Qed.


(** X2: with batch_size = 0 the division n_samples / batch_size raises
    ZeroDivisionError; the variables have already been re-initialized by
    then, no training step has run and the fitted attributes are
    untouched. *)
Theorem fit_batch_size_zero self rng X y s :
  batch_size self = 0%N ->
  fit tf_log self rng X y s
  = (State (Some (initial_values self)) (sess_steps s) (attrs s),
     Raise ZeroDivisionError).
Proof.
by move=> b0; have := fit_cases tf_log self rng X y s; rewrite /py_div b0.
Qed.

(** X3: with n_epochs = 0 fit draws no permutation and runs no training
    step: it inverts K of the data as given under the initial values of
    the variables and stores that inverse with X and y themselves, or
    raises InvalidArgument when this K has no inverse; y is not looked at,
    whatever its length. *)
Theorem fit_without_epochs self rng X y s :
  n_epochs self = 0%N -> (0 < batch_size self)%N ->
  let v := initial_values self in
  fit tf_log self rng X y s
  = if K self v X \in unitmx
    then (State (Some v) (sess_steps s)
            (Some (Fitted X y (invmx (K self v X)))), Ok tt)
    else (State (Some v) (sess_steps s) (attrs s), Raise InvalidArgument).
Proof.
move=> e0 bpos /=; have := fit_cases tf_log self rng X y s.
by rewrite /py_div eqn0Ngt bpos e0 /=; case: ifP.
Qed.

(* an epoch loop with no batch only shuffles *)
Lemma epoch_loop_no_batches self rng n es X y s :
  permutation_source rng -> size y = size X -> n = size X ->
  exists Xn yn,
    [/\ epoch_loop tf_log self rng n 0 es X y s = (s, Ok (Xn, yn)),
        size Xn = size X, size yn = size X
      & perm_eq (zip Xn yn) (zip X y)].
Proof.
move=> prng; elim: es X y => [|i es IH] X y sy nX /=.
  by exists X, y; split.
have pn : perm_eq (rng i n) (iota 0 (size X)) by rewrite -nX.
rewrite bindE /lift /= shuffle_the_data_ok //= bindE /=.
set X' := [seq nth 0 X j | j <- rng i n].
set y' := [seq nth 0 y j | j <- rng i n].
have sX' : size X' = size X.
  by rewrite size_map (perm_size pn) size_iota.
have sy' : size y' = size X'.
  by rewrite !size_map.
have [Xn [yn [-> sXn syn pXn]]] := IH X' y' sy' (etrans nX (esym sX')).
exists Xn, yn; split=> //; rewrite -?sX' //.
by rewrite (perm_trans pXn) // shuffled_zip_perm.
Qed.

(** X4: when batch_size exceeds the number of rows, n_batches is 0 and no
    training step runs in any epoch: fit only shuffles, then inverts K of
    the shuffled data under the initial values of the variables and
    stores it with the shuffled X and y, or raises InvalidArgument when
    that K has no inverse. *)
Theorem oversized_batch_trains_nothing self rng X y s :
  permutation_source rng -> size y = size X ->
  (size X < batch_size self)%N ->
  let v := initial_values self in
  exists Xn yn,
    [/\ size Xn = size X /\ size yn = size X,
        perm_eq (zip Xn yn) (zip X y)
      & fit tf_log self rng X y s
        = if K self v Xn \in unitmx
          then (State (Some v) (sess_steps s)
                  (Some (Fitted Xn yn (invmx (K self v Xn)))), Ok tt)
          else (State (Some v) (sess_steps s) (attrs s),
                Raise InvalidArgument)].
Proof.
move=> prng sy lt /=.
have bpos : (0 < batch_size self)%N by apply: leq_ltn_trans lt.
have [Xn [yn [eE sXn syn pXn]]] :=
  epoch_loop_no_batches self (iota 0 (n_epochs self))
    (State (Some (initial_values self)) (sess_steps s) (attrs s))
    prng sy (erefl (size X)).
exists Xn, yn; split=> //.
have := fit_cases tf_log self rng X y s.
by rewrite /py_div eqn0Ngt bpos /= divn_small // eE /=; case: ifP.
Qed.

(** X5: when y has fewer rows than X and there is at least one epoch, the
    first y[shuffle] raises IndexError: it surfaces from fit before any
    training step, with the variables re-initialized and the fitted
    attributes untouched. *)
Theorem fit_short_y self rng X y s :
  permutation_source rng -> (size y < size X)%N ->
  (0 < n_epochs self)%N -> (0 < batch_size self)%N ->
  fit tf_log self rng X y s
  = (State (Some (initial_values self)) (sess_steps s) (attrs s),
     Raise IndexError).
Proof.
move=> prng lt epos bpos; have := fit_cases tf_log self rng X y s.
rewrite /py_div eqn0Ngt bpos /=.
case: (n_epochs self) epos => // k _.
rewrite -[k.+1]addn1 addnC iotaD /= bindE /lift /= /shuffle_the_data.
rewrite np_take_perm //= /np_take.
have -> : all (fun i => (i < size y)%N) (rng 0%N (size X)) = false.
  apply/negbTE/allPn; exists (size y); last by rewrite ltnn.
  by rewrite (perm_mem (prng 0%N (size X))) mem_iota add0n.
by [].
Qed.

(* rows of y past the rows of X are not read by a shuffle *)
Lemma shuffle_the_data_take shuffle X y :
  perm_eq shuffle (iota 0 (size X)) -> (size X <= size y)%N ->
  shuffle_the_data shuffle X y
  = shuffle_the_data shuffle X (take (size X) y).
Proof.
move=> pX le; rewrite /shuffle_the_data np_take_perm //=.
have lt i : i \in shuffle -> (i < size X)%N.
  by rewrite (perm_mem pX) mem_iota add0n.
rewrite /np_take size_takel //.
have -> : all (fun i => (i < size y)%N) shuffle.
  by apply/allP => i /lt iX; apply: leq_trans le.
have -> : all (fun i => (i < size X)%N) shuffle by apply/allP.
congr (Ok (_, _)); apply/eq_in_map => i /lt iX.
by rewrite nth_take.
Qed.

(** X6: with at least one epoch, rows of y beyond the number of rows of X
    are silently dropped by the first shuffle: fit behaves exactly as on
    y cut to the rows of X. *)
Theorem fit_ignores_extra_y self rng X y s :
  permutation_source rng -> (size X <= size y)%N -> (0 < n_epochs self)%N ->
  fit tf_log self rng X y s = fit tf_log self rng X (take (size X) y) s.
Proof.
move=> prng le; case E: (n_epochs self) => [|k] // _.
have eE nb s0 :
    epoch_loop tf_log self rng (size X) nb (iota 0 k.+1) X y s0
    = epoch_loop tf_log self rng (size X) nb (iota 0 k.+1) X
        (take (size X) y) s0.
  by rewrite /= !bindE /lift /= -shuffle_the_data_take.
rewrite /fit E; move: (iota 0 k.+1) eE => es eE.
rewrite !bindE /=; case: (py_div _ _) => [nb|e] //=.
by rewrite !bindE eE.
Qed.

End FitEdges.

(* ===================================================================== *)
(* The gradient function outside its domain                              *)
(* ===================================================================== *)

Section GradientEdges.

Variable R : realFieldType.

(** X7: on a matrix with no inverse the gradient function registered for
    MatrixDeterminant raises the inverse op's InvalidArgument, although
    the determinant has a gradient there too: for every square A,
    changing the entry (i, j) by e changes det(A) by e times the
    cofactor of (i, j). *)
Theorem MatrixDeterminant_gradient_singular n (A : 'M[R]_n) (g : R) :
  A \notin unitmx ->
  _MatrixDeterminant (MatrixDeterminant A) g = Raise InvalidArgument
  /\ (forall i j e,
        \det (A + e *: delta_mx i j) - \det A = e * cofactor A i j).
Proof.
move=> /negbTE nuA; split.
  by rewrite /_MatrixDeterminant /= /tf_matrix_inverse nuA.
by move=> i j e; rewrite det_entry_perturb addrC addKr.
Qed.

End GradientEdges.

(* ===================================================================== *)
(* The covariance matrix and the posterior                               *)
(* ===================================================================== *)

Section PosteriorFacts.

Variable R : realFieldType.
Variable n_dim : nat.
Variable tf_log : R -> R.

Local Notation point := 'rV[R]_n_dim.

Implicit Types (self : GaussianProcess R n_dim) (s : state R n_dim).
Implicit Types (X Xq : seq point) (y : seq R) (v : variables R n_dim).
Implicit Types (rng : nat -> nat -> seq nat) (f : fitted R n_dim).

(** X8: with a symmetric positive semi-definite kernel and a noise
    variable that is not zero, K is symmetric and has an inverse for every
    training set, so the K_inv node returns a two-sided, symmetric inverse
    and the cost node returns a value for every y with one entry per
    row. *)
Theorem K_inverse_defined self v X :
  psd_kernel (kernel_fun (kernel self) (length_scales v) (amp v)) ->
  noise v != 0 ->
  exists Ki,
    [/\ K_inv self v X = Ok Ki,
        Ki *m K self v X = 1%:M /\ K self v X *m Ki = 1%:M,
        (K self v X)^T = K self v X /\ Ki^T = Ki
      & forall y, size y = size X -> is_ok (cost tf_log self v X y)].
Proof.
move=> kpsd nz; have pd := K_positive_definite X kpsd nz.
have uK := positive_definite_unit pd; have [sK _] := pd.
exists (invmx (K self v X)); split.
- by rewrite /K_inv tf_matrix_inverse_unit.
- by rewrite mulVmx // mulmxV.
- by rewrite trmx_inv sK.
by move=> y sy; rewrite /cost as_col_ok //= /K_inv tf_matrix_inverse_unit.
Qed.

(** X9: K depends on the noise variable through its square only: values
    of the variables that differ by the sign of noise give the same K,
    the same K_inv and the same cost. *)
Theorem noise_sign_irrelevant self v v' X y :
  length_scales v' = length_scales v -> amp v' = amp v ->
  noise v' = - noise v ->
  [/\ K self v' X = K self v X, K_inv self v' X = K_inv self v X
    & cost tf_log self v' X y = cost tf_log self v X y].
Proof.
move=> lE aE nE.
have KE : K self v' X = K self v X.
  rewrite !K_formula nE sqrrN; congr (_ + _).
  by apply/matrixP => i j; rewrite !mxE lE aE.
by split; rewrite // /cost /K_inv KE.
Qed.

(* the quadratic form of the inverse of a positive-definite matrix *)
Lemma inverse_quadratic_nonneg n (A : 'M[R]_n) (r : 'rV[R]_n) :
  positive_definite A -> 0 <= (r *m invmx A *m r^T) 0 0.
Proof.
move=> pd; have uA := positive_definite_unit pd; have [sA pA] := pd.
pose x := invmx A *m r^T.
have rE : r^T = A *m x by rewrite /x mulKVmx.
have rE' : r = x^T *m A by rewrite -[LHS]trmxK rE trmx_mul sA.
have -> : r *m invmx A *m r^T = x^T *m A *m x.
  by rewrite -mulmxA -/x {1}rE'.
have [->|xn0] := eqVneq x 0; first by rewrite mulmx0 mxE.
exact/ltW/pA.
Qed.

(** X10: with a positive-definite training covariance K and its inverse
    cached, the variance predict returns is at most amp^2 at every query
    row: conditioning on data never raises the variance above the prior
    variance. *)
Theorem predictive_variance_at_most_prior self s f Xq v :
  positive_definite (K self v (Xf f)) ->
  attrs s = Some f -> size (yf f) = size (Xf f) ->
  K_invf f = invmx (K self v (Xf f)) ->
  exists y_pred var,
    predict self s Xq = Ok (y_pred, var)
    /\ forall i, var v i 0 <= amp v ^+ 2.
Proof.
move=> pd fs sy KiE.
have [y_pred [var [pE /(_ v) /= [_ vE]]]] := predict_spec self Xq fs sy.
exists y_pred, var; split=> // i; rewrite vE KiE lerBlDr lerDl.
set Ks := covariance _ _ _ _.
suff -> : \sum_j (Ks *m invmx (K self v (Xf f))) i j * Ks i j
          = (row i Ks *m invmx (K self v (Xf f)) *m (row i Ks)^T) 0 0.
  exact: inverse_quadratic_nonneg.
rewrite -row_mul [RHS]mxE; apply: eq_bigr => j _.
by rewrite !mxE.
Qed.

(** X11: predict at the training inputs themselves, with the cached
    inverse equal to K^-1: the mean is y minus noise^2 * K^-1 * y; so
    with noise 0 the mean reproduces the training targets exactly and the
    variance at training row i is amp^2 minus the kernel's value at
    (x_i, x_i). *)
Theorem predict_on_training_inputs self s f v :
  attrs s = Some f -> size (yf f) = size (Xf f) ->
  K self v (Xf f) \in unitmx -> K_invf f = invmx (K self v (Xf f)) ->
  let y := col_of_seq (size (Xf f)) (yf f) in
  exists y_pred var,
    [/\ predict self s (Xf f) = Ok (y_pred, var),
        y_pred v = y - noise v ^+ 2 *: (invmx (K self v (Xf f)) *m y)
      & noise v = 0 ->
        y_pred v = y
        /\ forall i,
             var v i 0
             = amp v ^+ 2
               - kernel_fun (kernel self) (length_scales v) (amp v)
                   (tnth (in_tuple (Xf f)) i) (tnth (in_tuple (Xf f)) i)].
Proof.
move=> fs sy uK KiE /=.
have [y_pred [var [pE /(_ v) /= [yE vE]]]] := predict_spec self (Xf f) fs sy.
have KsE : covariance (kernel self) v (Xf f) (Xf f)
           = K self v (Xf f) - noise v ^+ 2 *: 1%:M.
  by rewrite K_formula addrK.
have AE : covariance (kernel self) v (Xf f) (Xf f) *m K_invf f
          = 1%:M - noise v ^+ 2 *: invmx (K self v (Xf f)).
  by rewrite KiE KsE mulmxBl mulmxV // -scalemxAl mul1mx.
exists y_pred, var; split=> //.
  by rewrite yE AE mulmxBl mul1mx -scalemxAl.
move=> n0; split; first by rewrite yE AE n0 expr2 mul0r scale0r subr0 mul1mx.
move=> i; rewrite vE AE n0 [0 ^+ 2]expr2 mul0r scale0r subr0; congr (_ - _).
rewrite (bigD1 i) //= !mxE eqxx mul1r big1 ?addr0 // => j ji.
by rewrite !mxE eq_sym (negbTE ji) mul0r.
Qed.

(** X12: when batch_size divides the number of rows, the minibatches of
    each epoch of a returning fit cut that epoch's shuffled data into
    pieces with nothing left over: put end to end they are a permutation
    of the (X row, y row) pairs of the input, so every pair is fed to
    exactly one training step per epoch. *)
Theorem epoch_feeds_every_row_once self rng X y s s' :
  permutation_source rng -> size y = size X ->
  (batch_size self %| size X)%N ->
  fit tf_log self rng X y s = (s', Ok tt) ->
  let b := batch_size self in
  let n_batches := (size X %/ b)%N in
  exists epochs : seq (seq point * seq R),
    [/\ size epochs = n_epochs self,
        sess_steps s'
        = sess_steps s
          ++ flatten [seq minibatches b n_batches e | e <- epochs]
      & forall e, e \in epochs ->
          perm_eq
            (zip (flatten [seq mb.1 | mb <- minibatches b n_batches e])
                 (flatten [seq mb.2 | mb <- minibatches b n_batches e]))
            (zip X y)].
Proof.
move=> prng sy dv fE /=.
have [eps [v [Xn [yn [[bpos se] [_ ep] st _ _]]]]] := fit_ok prng sy fE.
exists eps; split=> // e /ep [s1 s2 pe].
have [-> ->] := unzip_minibatches (batch_size self)
                  (size X %/ batch_size self) e.
by rewrite divnK // -{1}s1 -{1}s2 !take_size.
Qed.

(** X13: fit, then predict, then sess.run of the two returned tensors:
    after a fit that returns, predict returns on every query and
    sess.run evaluates both tensors under the variables the fit ended
    with, which are the variables the cached inverse was computed with;
    the mean is K* K^-1 y and the variance amp^2 - sum_j (K* K^-1)[i,j]
    K*[i,j] over the stored rows, at those final variables. *)
Theorem fit_predict_run self rng X y s s' Xq :
  permutation_source rng -> size y = size X ->
  fit tf_log self rng X y s = (s', Ok tt) ->
  exists v Xn yn y_pred var,
    [/\ sess_vars s' = Some v /\ perm_eq (zip Xn yn) (zip X y),
        predict self s' Xq = Ok (y_pred, var),
        sess_run y_pred s'
        = Ok (covariance (kernel self) v Xq Xn *m invmx (K self v Xn)
                *m col_of_seq (size Xn) yn)
      & exists2 r, sess_run var s' = Ok r
          & forall i,
              r i 0
              = amp v ^+ 2
                - \sum_j (covariance (kernel self) v Xq Xn
                            *m invmx (K self v Xn)) i j
                         * covariance (kernel self) v Xq Xn i j].
Proof.
move=> prng sy fE.
have [eps [v [Xn [yn [_ [lE ep] _ [sv uK] aE]]]]] := fit_ok prng sy fE.
have [sXn syn pXn] : [/\ size Xn = size X, size yn = size X
                       & perm_eq (zip Xn yn) (zip X y)].
  case: eps lE ep => [|e0 eps] /=; first by case=> -> ->.
  move=> lE ep; have := ep (last e0 eps) (mem_last _ _).
  by rewrite -lE.
have syn' : size (yf (Fitted Xn yn (invmx (K self v Xn))))
            = size (Xf (Fitted Xn yn (invmx (K self v Xn)))).
  by rewrite /= syn sXn.
have [y_pred [var [pE /(_ v) /= [yE vE]]]] := predict_spec self Xq aE syn'.
exists v, Xn, yn, y_pred, var; split=> //.
  by rewrite /sess_run sv yE.
by exists (var v); rewrite /sess_run ?sv.
Qed.

End PosteriorFacts.

Section TargetsAndTermination.

Variable R : realFieldType.
Variable n_dim : nat.
Variable tf_log : R -> R.

Local Notation point := 'rV[R]_n_dim.

Implicit Types (self : GaussianProcess R n_dim) (s : state R n_dim).
Implicit Types (X Xq : seq point) (y : seq R) (v : variables R n_dim).
Implicit Types (rng : nat -> nat -> seq nat) (f : fitted R n_dim).

(** X14: the variance predict returns does not depend on the training
    targets: two fitted states with the same stored inputs and the same
    cached inverse give the same variance whatever their yf; and the mean
    is linear in the targets: scaling every target by c scales the mean by
    c. *)
Theorem variance_ignores_targets self s1 s2 Xt (y1 y2 : seq R)
    (Ki : 'M[R]_(size Xt)) (c : R) Xq :
  attrs s1 = Some (Fitted Xt y1 Ki) -> attrs s2 = Some (Fitted Xt y2 Ki) ->
  size y1 = size Xt -> size y2 = size Xt ->
  exists m1 m2 var,
    [/\ predict self s1 Xq = Ok (m1, var), predict self s2 Xq = Ok (m2, var)
      & y2 = [seq c * t | t <- y1] -> forall v, m2 v = c *: m1 v].
Proof.
move=> a1 a2 sy1 sy2; rewrite /predict a1 a2 /= !as_col_ok //=.
do 3!eexists; split; [by [] | by [] |] => yE v.
have -> : col_of_seq (size Xt) y2 = c *: col_of_seq (size Xt) y1.
  apply/matrixP => i j; rewrite !mxE yE.
  case: (ltnP i (size y1)) => lt; first by rewrite (nth_map 0).
  by rewrite !nth_default ?size_map // mulr0.
by rewrite /tf_matmul -scalemxAr.
Qed.

(** X15: fit returns, for every training set with as many targets as
    rows, when the kernel is symmetric positive semi-definite at all
    values of its parameters, the constructor's noise is not zero and is
    not trained, batch_size is positive, and the optimizer changes only
    the variables of its list and completes a step whenever the cost
    evaluates on the fed batch: no K met during the fit is singular. *)
Theorem fit_returns_with_fixed_noise self rng X y s :
  (forall ls a, psd_kernel (kernel_fun (kernel self) ls a)) ->
  noise_arg self != 0 -> train_noise self = false ->
  optimizer_contract (optimizer self) ->
  (forall c vl v X' y', is_ok (c v X' y') ->
     is_ok (optimizer self c vl v X' y')) ->
  (0 < batch_size self)%N -> permutation_source rng -> size y = size X ->
  exists s', fit tf_log self rng X y s = (s', Ok tt).
Proof.
move=> kpsd nz tn oc ot bpos prng sy.
apply: (@fit_returns _ _ _ self (fun v => noise v = noise_arg self)) => //.
  move=> v X' y' nv sy'.
  have uK : K self v X' \in unitmx.
    by apply/positive_definite_unit/K_positive_definite; rewrite ?nv.
  have : is_ok (train tf_log self v X' y').
    apply: ot; rewrite /cost as_col_ok //= /K_inv.
    by rewrite tf_matrix_inverse_unit.
  case tE: (train tf_log self v X' y') => [v'|] // _; exists v' => //.
  have := @train_frame _ _ tf_log self var_noise v X' y' v' oc.
  by rewrite var_listE tn /= => /(_ isT tE) ->.
move=> v X' nv.
by apply/positive_definite_unit/K_positive_definite; rewrite ?nv.
Qed.

End TargetsAndTermination.

(* ===================================================================== *)
(* The further properties on the sample models.                          *)
(* ===================================================================== *)

(* the noiseless model on a duplicated row: the final inversion fails *)
Lemma noiseless_fit_raises s :
  fit sample_log noiseless_gp reversing_source duplicate_X duplicate_y s
  = (State (Some (initial_values noiseless_gp)) (sess_steps s) (attrs s),
     Raise InvalidArgument).
Proof.
have := fit_cases sample_log noiseless_gp reversing_source duplicate_X
          duplicate_y s.
by rewrite /= (negbTE noiseless_K_singular).
Qed.

(* fit returns on the sample model for every data set *)
Lemma sample_fit_returns_on X y s :
  size y = size X ->
  fit sample_log sample_gp reversing_source X y s
  = ((fit sample_log sample_gp reversing_source X y s).1, Ok tt).
Proof.
move=> sy.
have [s' ->] //:
  exists s', fit sample_log sample_gp reversing_source X y s = (s', Ok tt).
apply: (@step_fit_returns _ _ _ _ (1 / 100%:R)) => //.
- by move=> ls a; apply: constant_kernel_psd.
- exact: reversing_source_ok.
Qed.

(* the sample update rule completes whenever the cost evaluates *)
Lemma step_optimizer_total (rate : rat) (c : cost_node rat 1) vl v X y :
  is_ok (c v X y) -> is_ok (step_optimizer rate c vl v X y).
Proof. by rewrite /step_optimizer; case: (c v X y). Qed.


Lemma fit_batch_size_zero_witness :
  let self := zero_batch_gp in
  let s := sample_state in
  batch_size self = 0%N
  /\ fit sample_log self reversing_source sample_X sample_y s
     = (State (Some (initial_values self)) (sess_steps s) (attrs s),
        Raise ZeroDivisionError).
Proof.
move=> self s; split; last first.
  exact: (@fit_batch_size_zero _ _ sample_log self reversing_source sample_X
          sample_y s (erefl _)).
all: by [].
Defined.

Lemma fit_without_epochs_witness :
  let self := degenerate_gp in
  let X := single_X in
  let y := single_y in
  let s := new_state rat 1 in
  let v := initial_values self in
  [/\ n_epochs self = 0%N, (0 < batch_size self)%N
    & fit sample_log self reversing_source X y s
      = if K self v X \in unitmx
        then (State (Some v) (sess_steps s)
                (Some (Fitted X y (invmx (K self v X)))), Ok tt)
        else (State (Some v) (sess_steps s) (attrs s),
              Raise InvalidArgument)].
Proof.
move=> self X y s v; split; last first.
  exact: (@fit_without_epochs _ _ sample_log self reversing_source X y s
          (erefl _) (erefl _)).
all: by [].
Defined.

Lemma oversized_batch_trains_nothing_witness :
  let self := oversized_batch_gp in
  let rng := reversing_source in
  let X := sample_X in
  let y := sample_y in
  let s := new_state rat 1 in
  let v := initial_values self in
  [/\ permutation_source rng, size y = size X,
      (size X < batch_size self)%N
    & exists Xn yn,
        [/\ size Xn = size X /\ size yn = size X,
            perm_eq (zip Xn yn) (zip X y)
          & fit sample_log self rng X y s
            = if K self v Xn \in unitmx
              then (State (Some v) (sess_steps s)
                      (Some (Fitted Xn yn (invmx (K self v Xn)))), Ok tt)
              else (State (Some v) (sess_steps s) (attrs s),
                    Raise InvalidArgument)]].
Proof.
move=> self rng X y s v.
have prng : permutation_source rng by exact: reversing_source_ok.
have sy : size y = size X by [].
have lt : (size X < batch_size self)%N by [].
split; last first.
  exact: (oversized_batch_trains_nothing sample_log s prng sy lt).
all: by [].
Defined.

Lemma fit_short_y_witness :
  let self := sample_gp in
  let rng := reversing_source in
  let X := sample_X in
  let y := duplicate_y in
  let s := sample_state in
  [/\ permutation_source rng, (size y < size X)%N,
      (0 < n_epochs self)%N /\ (0 < batch_size self)%N
    & fit sample_log self rng X y s
      = (State (Some (initial_values self)) (sess_steps s) (attrs s),
         Raise IndexError)].
Proof.
move=> self rng X y s.
have prng : permutation_source rng by exact: reversing_source_ok.
split; last first.
  exact: (@fit_short_y _ _ sample_log self rng X y s prng (erefl _) (erefl _)
          (erefl _)).
all: by [].
Defined.

Lemma fit_ignores_extra_y_witness :
  let self := sample_gp in
  let rng := reversing_source in
  let X := duplicate_X in
  let y := sample_y in
  let s := new_state rat 1 in
  [/\ permutation_source rng, (size X <= size y)%N, (0 < n_epochs self)%N
    & fit sample_log self rng X y s
      = fit sample_log self rng X (take (size X) y) s].
Proof.
move=> self rng X y s.
have prng : permutation_source rng by exact: reversing_source_ok.
split; last first.
  exact: (@fit_ignores_extra_y _ _ sample_log self rng X y s prng (erefl _)
          (erefl _)).
all: by [].
Defined.

Lemma MatrixDeterminant_gradient_singular_witness :
  let A := (0 : 'M[rat]_2) in
  A \notin unitmx
  /\ (_MatrixDeterminant (MatrixDeterminant A) 3 = Raise InvalidArgument
      /\ (forall i j e,
            \det (A + e *: delta_mx i j) - \det A = e * cofactor A i j)).
Proof.
move=> A.
have nuA : A \notin unitmx by rewrite unitmxE det0 unitr0.
split; last first.
  exact: (MatrixDeterminant_gradient_singular 3 nuA).
all: by [].
Defined.

Lemma K_inverse_defined_witness :
  let self := sample_gp in
  let v := initial_values self in
  let X := sample_X in
  [/\ psd_kernel (kernel_fun (kernel self) (length_scales v) (amp v)),
      noise v != 0
    & exists Ki,
        [/\ K_inv self v X = Ok Ki,
            Ki *m K self v X = 1%:M /\ K self v X *m Ki = 1%:M,
            (K self v X)^T = K self v X /\ Ki^T = Ki
          & forall y, size y = size X ->
              is_ok (cost sample_log self v X y)]].
Proof.
move=> self v X.
have kp : psd_kernel (kernel_fun (kernel self) (length_scales v) (amp v)).
  exact: constant_kernel_psd.
have nz : noise v != 0 by exact: oner_neq0.
split; last first.
  exact: (K_inverse_defined sample_log X kp nz).
all: by [].
Defined.

Lemma noise_sign_irrelevant_witness :
  let self := sample_gp in
  let v := initial_values self in
  let v' := negated_noise_values in
  let X := sample_X in
  let y := sample_y in
  [/\ length_scales v' = length_scales v, amp v' = amp v,
      noise v' = - noise v
    & [/\ K self v' X = K self v X, K_inv self v' X = K_inv self v X
        & cost sample_log self v' X y = cost sample_log self v X y]].
Proof.
move=> self v v' X y; split; last first.
  exact: (@noise_sign_irrelevant _ _ sample_log self v v' X y (erefl _)
          (erefl _) (erefl _)).
all: by [].
Defined.

Lemma predictive_variance_at_most_prior_witness :
  let self := sample_gp in
  let s := sample_state in
  let f := sample_fitted in
  let Xq := sample_query in
  let v := initial_values self in
  [/\ positive_definite (K self v (Xf f)),
      attrs s = Some f, size (yf f) = size (Xf f),
      K_invf f = invmx (K self v (Xf f))
    & exists y_pred var,
        predict self s Xq = Ok (y_pred, var)
        /\ forall i, var v i 0 <= amp v ^+ 2].
Proof.
move=> self s f Xq v.
have pd : positive_definite (K self v (Xf f)).
  exact: sample_K_positive_definite.
split; last first.
  exact: (@predictive_variance_at_most_prior _ _ self s f Xq v pd (erefl _)
          (erefl _) (erefl _)).
all: by [].
Defined.

Lemma predict_on_training_inputs_witness :
  let self := sample_gp in
  let s := sample_state in
  let f := sample_fitted in
  let v := initial_values self in
  let y := col_of_seq (size (Xf f)) (yf f) in
  [/\ attrs s = Some f, size (yf f) = size (Xf f),
      K self v (Xf f) \in unitmx, K_invf f = invmx (K self v (Xf f))
    & exists y_pred var,
        [/\ predict self s (Xf f) = Ok (y_pred, var),
            y_pred v = y - noise v ^+ 2 *: (invmx (K self v (Xf f)) *m y)
          & noise v = 0 ->
            y_pred v = y
            /\ forall i,
                 var v i 0
                 = amp v ^+ 2
                   - kernel_fun (kernel self) (length_scales v) (amp v)
                       (tnth (in_tuple (Xf f)) i)
                       (tnth (in_tuple (Xf f)) i)]].
Proof.
move=> self s f v y.
have uK : K self v (Xf f) \in unitmx.
  exact/positive_definite_unit/sample_K_positive_definite.
split; last first.
  exact: (@predict_on_training_inputs _ _ self s f v (erefl _) (erefl _) uK
          (erefl _)).
all: by [].
Defined.

Lemma epoch_feeds_every_row_once_witness :
  let self := sample_gp in
  let rng := reversing_source in
  let X := even_X in
  let y := even_y in
  let s := new_state rat 1 in
  let s' := (fit sample_log self rng X y s).1 in
  let b := batch_size self in
  let n_batches := (size X %/ b)%N in
  [/\ permutation_source rng, size y = size X, (b %| size X)%N,
      fit sample_log self rng X y s = (s', Ok tt)
    & exists epochs : seq (seq 'rV[rat]_1 * seq rat),
        [/\ size epochs = n_epochs self,
            sess_steps s'
            = sess_steps s
              ++ flatten [seq minibatches b n_batches e | e <- epochs]
          & forall e, e \in epochs ->
              perm_eq
                (zip (flatten [seq mb.1 | mb <- minibatches b n_batches e])
                     (flatten [seq mb.2 | mb <- minibatches b n_batches e]))
                (zip X y)]].
Proof.
move=> self rng X y s s' b n_batches.
have prng : permutation_source rng by exact: reversing_source_ok.
have sy : size y = size X by [].
have dv : (b %| size X)%N by [].
have fE : fit sample_log self rng X y s = (s', Ok tt).
  exact: sample_fit_returns_on.
split; last first.
  exact: (epoch_feeds_every_row_once prng sy dv fE).
all: by [].
Defined.

Lemma fit_predict_run_witness :
  let self := sample_gp in
  let rng := reversing_source in
  let X := sample_X in
  let y := sample_y in
  let s := new_state rat 1 in
  let s' := (fit sample_log self rng X y s).1 in
  let Xq := sample_query in
  [/\ permutation_source rng, size y = size X,
      fit sample_log self rng X y s = (s', Ok tt)
    & exists v Xn yn y_pred var,
        [/\ sess_vars s' = Some v /\ perm_eq (zip Xn yn) (zip X y),
            predict self s' Xq = Ok (y_pred, var),
            sess_run y_pred s'
            = Ok (covariance (kernel self) v Xq Xn *m invmx (K self v Xn)
                    *m col_of_seq (size Xn) yn)
          & exists2 r, sess_run var s' = Ok r
              & forall i,
                  r i 0
                  = amp v ^+ 2
                    - \sum_j (covariance (kernel self) v Xq Xn
                                *m invmx (K self v Xn)) i j
                             * covariance (kernel self) v Xq Xn i j]].
Proof.
move=> self rng X y s s' Xq.
have prng : permutation_source rng by exact: reversing_source_ok.
have sy : size y = size X by [].
have fE : fit sample_log self rng X y s = (s', Ok tt).
  exact: sample_fit_returns_on.
split; last first.
  exact: (fit_predict_run Xq prng sy fE).
all: by [].
Defined.

Lemma variance_ignores_targets_witness :
  let self := sample_gp in
  let s1 := sample_state in
  let s2 := doubled_state in
  let Xt := sample_X in
  let y1 := sample_y in
  let y2 := [seq 2 * t | t <- sample_y] in
  let Ki := invmx (K sample_gp (initial_values sample_gp) sample_X) in
  let Xq := sample_query in
  [/\ attrs s1 = Some (Fitted Xt y1 Ki), attrs s2 = Some (Fitted Xt y2 Ki),
      size y1 = size Xt, size y2 = size Xt
    & exists m1 m2 var,
        [/\ predict self s1 Xq = Ok (m1, var),
            predict self s2 Xq = Ok (m2, var)
          & y2 = [seq 2 * t | t <- y1] -> forall v, m2 v = 2 *: m1 v]].
Proof.
move=> self s1 s2 Xt y1 y2 Ki Xq; split; last first.
  exact: (@variance_ignores_targets _ _ self s1 s2 Xt y1 y2 Ki 2 Xq (erefl _)
          (erefl _) (erefl _) (erefl _)).
all: by [].
Defined.

Lemma fit_returns_with_fixed_noise_witness :
  let self := sample_gp in
  let rng := reversing_source in
  let X := sample_X in
  let y := sample_y in
  let s := new_state rat 1 in
  [/\ (forall ls a, psd_kernel (kernel_fun (kernel self) ls a))
      /\ noise_arg self != 0,
      train_noise self = false /\ optimizer_contract (optimizer self),
      forall c vl v X' y', is_ok (c v X' y') ->
        is_ok (optimizer self c vl v X' y'),
      [/\ (0 < batch_size self)%N, permutation_source rng & size y = size X]
    & exists s', fit sample_log self rng X y s = (s', Ok tt)].
Proof.
move=> self rng X y s.
have kp : forall ls a, psd_kernel (kernel_fun (kernel self) ls a).
  by move=> ls a; apply: constant_kernel_psd.
have nz : noise_arg self != 0 by exact: oner_neq0.
have oc : optimizer_contract (optimizer self).
  exact: step_optimizer_contract.
have ot : forall c vl v X' y', is_ok (c v X' y') ->
            is_ok (optimizer self c vl v X' y').
  by move=> c vl v X' y'; apply: step_optimizer_total.
have prng : permutation_source rng by exact: reversing_source_ok.
split; last first.
  exact: (@fit_returns_with_fixed_noise _ _ sample_log self rng X y s kp nz
          (erefl _) oc ot (erefl _) prng (erefl _)).
all: by [].
Defined.

(* ===================================================================== *)
(* The course of a fit                                                   *)
(* ===================================================================== *)

Section FitCourse.

Variable R : realFieldType.
Variable n_dim : nat.
Variable tf_log : R -> R.

Local Notation point := 'rV[R]_n_dim.

Implicit Types (self : GaussianProcess R n_dim) (s : state R n_dim).
Implicit Types (X Xq : seq point) (y : seq R) (v : variables R n_dim).
Implicit Types (rng : nat -> nat -> seq nat) (f : fitted R n_dim).
Implicit Types (d e : seq point * seq R).

(* ----- the arrays of the epochs ----------------------------------------- *)

Lemma size_epochs_data rng n es d : size (epochs_data rng n es d) = size es.
Proof. by elim: es d => [|i es IH] d //=; rewrite IH. Qed.

Lemma nth_epochs_data rng n es d d0 i :
  (i < size es)%N ->
  nth d0 (epochs_data rng n es d) i
  = shuffled (rng (nth 0%N es i) n) (nth d0 (d :: epochs_data rng n es d) i).
Proof.
elim: es d i => [|j es IH] d [|i] //= lt.
by rewrite IH.
Qed.

Lemma epochs_data_ok rng n es d e :
  permutation_source rng -> size d.1 = n -> size d.2 = n ->
  e \in epochs_data rng n es d ->
  [/\ size e.1 = n, size e.2 = n & perm_eq (zip e.1 e.2) (zip d.1 d.2)].
Proof.
move=> prng; elim: es d => [|i es IH] d //= s1 s2.
have ss : size (rng i n) = n by rewrite (perm_size (prng i n)) size_iota.
have pz : perm_eq (zip (shuffled (rng i n) d).1 (shuffled (rng i n) d).2)
                  (zip d.1 d.2).
  by apply: shuffled_zip_perm; rewrite ?s1 ?s2.
rewrite inE => /orP [/eqP ->|]; first by rewrite /= !size_map.
move/IH => /=; rewrite !size_map => /(_ ss ss) [e1 e2 pe]; split=> //.
exact: perm_trans pe pz.
Qed.

Lemma last_epochs_data_ok rng n es d :
  permutation_source rng -> size d.1 = n -> size d.2 = n ->
  let e := last d (epochs_data rng n es d) in
  [/\ size e.1 = n, size e.2 = n & perm_eq (zip e.1 e.2) (zip d.1 d.2)].
Proof.
move=> prng s1 s2 /=.
case E: (epochs_data rng n es d) => [|e0 eps] //=.
by apply: (@epochs_data_ok rng n es d) => //; rewrite E mem_last.
Qed.

(* ----- the variables along the steps ------------------------------------- *)

Lemma train_steps_cat self v (a b : seq (seq point * seq R)) :
  train_steps tf_log self v (a ++ b)
  = (v' <-- train_steps tf_log self v a ;; train_steps tf_log self v' b).
Proof.
elim: a v => [|fd a IH] v //=.
by case: (train tf_log self v fd.1 fd.2) => [v1|e] /=.
Qed.

Lemma batch_loop_course self js X y s v :
  sess_vars s = Some v ->
  let fds := [seq (np_slice X (j * batch_size self)%N
                     ((j + 1) * batch_size self)%N,
                   np_slice y (j * batch_size self)%N
                     ((j + 1) * batch_size self)%N) | j <- js] in
  match train_steps tf_log self v fds with
  | Ok v' =>
      batch_loop tf_log self js X y s
      = (State (Some v') (sess_steps s ++ fds) (attrs s), Ok tt)
  | Raise e => (batch_loop tf_log self js X y s).2 = Raise e
  end.
Proof.
elim: js s v => [|j js IH] s v sv /=.
  by rewrite cats0 /ret -sv; case: s {sv}.
rewrite bindE /sess_run_train sv.
case: (train tf_log self v _ _) => [v1|e] //=.
set s1 := State _ _ _; have /= := IH s1 v1 (erefl _).
case: (train_steps _ _ _ _) => [v'|e] //= ->.
by rewrite cat_rcons.
Qed.

Lemma epoch_loop_course self rng n nb es X y s v :
  permutation_source rng -> size X = n -> size y = n ->
  sess_vars s = Some v ->
  let eps := epochs_data rng n es (X, y) in
  let fds := flatten [seq minibatches (batch_size self) nb e | e <- eps] in
  match train_steps tf_log self v fds with
  | Ok v' =>
      epoch_loop tf_log self rng n nb es X y s
      = (State (Some v') (sess_steps s ++ fds) (attrs s), Ok (last (X, y) eps))
  | Raise e => (epoch_loop tf_log self rng n nb es X y s).2 = Raise e
  end.
Proof.
move=> prng; elim: es X y s v => [|i es IH] X y s v sX sy sv /=.
  by rewrite cats0 /ret -sv; case: s {sv}.
rewrite bindE /lift /= shuffle_the_data_ok ?sX ?sy //= bindE.
rewrite train_steps_cat.
set X' := [seq nth 0 X k | k <- rng i n].
set y' := [seq nth 0 y k | k <- rng i n].
have ss : size (rng i n) = n by rewrite (perm_size (prng i n)) size_iota.
have := batch_loop_course self (iota 0 nb) X' y' sv.
rewrite /shuffled /= -/X' -/y'.
case: (train_steps _ _ _ _) => [v1|e] /=; last by move=> ->.
move=> -> /=; set s1 := State _ _ _.
have /= := IH X' y' s1 v1; rewrite !size_map => /(_ ss ss (erefl _)).
case: (train_steps _ _ _ _) => [v'|e] //= ->.
by rewrite catA.
Qed.

(* The outcome of fit, from the course written out. *)
Lemma fit_course self rng X y s :
  permutation_source rng -> size y = size X -> (0 < batch_size self)%N ->
  let eps := epochs_data rng (size X) (iota 0 (n_epochs self)) (X, y) in
  let fds := flatten [seq minibatches (batch_size self)
                            (size X %/ batch_size self) e | e <- eps] in
  let Xn := (last (X, y) eps).1 in
  let yn := (last (X, y) eps).2 in
  match train_steps tf_log self (initial_values self) fds with
  | Ok v =>
      if K self v Xn \in unitmx
      then fit tf_log self rng X y s
           = (State (Some v) (sess_steps s ++ fds)
                (Some (Fitted Xn yn (invmx (K self v Xn)))), Ok tt)
      else fit tf_log self rng X y s
           = (State (Some v) (sess_steps s ++ fds) (attrs s),
              Raise InvalidArgument)
  | Raise e => (fit tf_log self rng X y s).2 = Raise e
  end.
Proof.
move=> prng sy bpos /=.
rewrite /fit bindE /= bindE /lift /py_div eqn0Ngt bpos /= bindE.
set s0 := State _ _ _.
have /= := @epoch_loop_course self rng (size X) (size X %/ batch_size self)
          (iota 0 (n_epochs self)) X y s0 (initial_values self) prng
          (erefl _) sy (erefl _).
case: (train_steps _ _ _ _) => [v|e] /=; last by move=> ->.
move=> -> /=; case: (last _ _) => Xn yn /=.
rewrite bindE /sess_run_K_inv /= /K_inv /tf_matrix_inverse.
by case: ifP => ->.
Qed.

(* What a fit that returns has done. *)
Lemma fit_ok_course self rng X y s s' :
  permutation_source rng -> size y = size X ->
  fit tf_log self rng X y s = (s', Ok tt) ->
  let eps := epochs_data rng (size X) (iota 0 (n_epochs self)) (X, y) in
  let fds := flatten [seq minibatches (batch_size self)
                            (size X %/ batch_size self) e | e <- eps] in
  let Xn := (last (X, y) eps).1 in
  let yn := (last (X, y) eps).2 in
  exists v,
    [/\ (0 < batch_size self)%N,
        train_steps tf_log self (initial_values self) fds = Ok v,
        K self v Xn \in unitmx
      & s' = State (Some v) (sess_steps s ++ fds)
               (Some (Fitted Xn yn (invmx (K self v Xn))))].
Proof.
move=> prng sy fE /=.
have [_ [_ [_ [_ [[bpos _] _ _ _ _]]]]] := fit_ok prng sy fE.
have := fit_course s prng sy bpos; rewrite /= fE.
case: (train_steps _ _ _ _) => [v|e] //=.
by case: ifP => // uK [->]; exists v.
Qed.

Lemma epochs_data_rcons rng n es i d :
  epochs_data rng n (rcons es i) d
  = rcons (epochs_data rng n es d)
      (shuffled (rng i n) (last d (epochs_data rng n es d))).
Proof. by elim: es d => [|j es IH] d //=; rewrite IH. Qed.

(** C5: in every epoch of a fit that returns, X and y are shuffled by the
    one permutation np.random.permutation(n_samples) drew for that epoch,
    applied to both: the arrays of epoch i are the arrays before it (X and
    y themselves for the first epoch) indexed by that permutation, so row
    k of the shuffled X and row k of the shuffled y are the rows that
    stood at the same index shuffle[k], each (X row, y row) pair is a pair
    of before, and the shuffled rows are a permutation of the rows before;
    these shuffled arrays are the ones the epoch's training steps slice,
    and those of the last epoch are the ones fit ends with. *)
Theorem fit_shuffles_jointly self rng X y s s' :
  permutation_source rng -> size y = size X ->
  fit tf_log self rng X y s = (s', Ok tt) ->
  let N := size X in
  let b := batch_size self in
  exists epochs : seq (seq point * seq R),
    [/\ size epochs = n_epochs self,
        forall i, (i < n_epochs self)%N ->
          let before := nth (X, y) ((X, y) :: epochs) i in
          let after := nth (X, y) epochs i in
          let shuffle := rng i N in
          [/\ shuffle_the_data shuffle before.1 before.2 = Ok after,
              size after.1 = N /\ size after.2 = N,
              forall k, (k < N)%N ->
                nth 0 after.1 k = nth 0 before.1 (nth 0%N shuffle k)
                /\ nth 0 after.2 k = nth 0 before.2 (nth 0%N shuffle k),
              zip after.1 after.2
              = [seq nth (0, 0) (zip before.1 before.2) j | j <- shuffle]
            & perm_eq after.1 before.1
              /\ perm_eq (zip after.1 after.2) (zip before.1 before.2)],
        sess_steps s'
        = sess_steps s
          ++ flatten [seq minibatches b (N %/ b) e | e <- epochs]
      & exists v,
          attrs s'
          = Some (Fitted (last (X, y) epochs).1 (last (X, y) epochs).2
                    (invmx (K self v (last (X, y) epochs).1)))].
Proof.
move=> prng sy fE /=.
have /= [v [bpos _ _ s'E]] := fit_ok_course prng sy fE.
set eps := epochs_data rng (size X) (iota 0 (n_epochs self)) (X, y) in s'E *.
have seps : size eps = n_epochs self by rewrite size_epochs_data size_iota.
exists eps; split=> //; [|by rewrite s'E|by exists v; rewrite s'E].
move=> i iE /=.
have sz j : (j < n_epochs self)%N ->
    size (nth (X, y) ((X, y) :: eps) j).1 = size X
    /\ size (nth (X, y) ((X, y) :: eps) j).2 = size X.
  case: j => [|j] jE //=.
  have /(@epochs_data_ok rng (size X) _ (X, y)) : nth (X, y) eps j \in eps.
    by rewrite mem_nth // seps ltnW.
  by case=> // ? ? _.
have [sb1 sb2] := sz i iE.
set bf := nth (X, y) ((X, y) :: eps) i in sb1 sb2 *.
have -> : nth (X, y) eps i = shuffled (rng i (size X)) bf.
  by rewrite nth_epochs_data ?size_iota // nth_iota.
have pX : perm_eq (rng i (size X)) (iota 0 (size bf.1)) by rewrite sb1.
have sy' : size bf.2 = size bf.1 by rewrite sb1.
have [X' [y' []]] := shuffle_the_data_joint sy' pX.
rewrite shuffle_the_data_ok // => -[<- <-] [s1 s2] rows zE [p1 p2].
by rewrite sb1 in s1 s2 rows; split.
Qed.

(** C6: after the last epoch, a fit that returns stores the inverse of K
    evaluated over all N rows under the final variables, not over a
    minibatch, together with the arrays X and y as the epochs have left
    them: all N rows in the order of the last epoch's shuffle, each X row
    with its y (the arguments themselves when there is no epoch).  The
    triple does not depend on the attributes held before the call, so a
    later fit replaces it as a whole.  predict builds its two tensors
    from this triple and no other part of the state; the values sess.run
    gives for them depend on the triple and on the session's variables
    only. *)
Theorem fit_caches_fitted_state self rng X y s s' :
  permutation_source rng -> size y = size X ->
  fit tf_log self rng X y s = (s', Ok tt) ->
  let N := size X in
  exists v Xn yn,
    [/\ sess_vars s' = Some v
        /\ attrs s' = Some (Fitted Xn yn (invmx (K self v Xn))),
        K self v Xn \in unitmx
        /\ invmx (K self v Xn) *m K self v Xn = 1%:M,
        [/\ (Xn, yn)
            = last (X, y) (epochs_data rng N (iota 0 (n_epochs self)) (X, y)),
            size Xn = N /\ size yn = N,
            perm_eq (zip Xn yn) (zip X y),
            n_epochs self = 0%N -> Xn = X /\ yn = y
          & forall k, n_epochs self = k.+1 ->
              let before :=
                last (X, y) (epochs_data rng N (iota 0 k) (X, y)) in
              Xn = [seq nth 0 before.1 i | i <- rng k N]
              /\ yn = [seq nth 0 before.2 i | i <- rng k N]],
        forall s2,
          (fit tf_log self rng X y s2).2 = Ok tt
          /\ attrs (fit tf_log self rng X y s2).1 = attrs s'
      & forall s1 s2 Xq,
          attrs s1 = attrs s2 ->
          predict self s1 Xq = predict self s2 Xq
          /\ (sess_vars s1 = sess_vars s2 ->
              predict_and_run self s1 Xq = predict_and_run self s2 Xq)].
Proof.
move=> prng sy fE /=.
have /= [v [bpos tE uK s'E]] := fit_ok_course prng sy fE.
set eps := epochs_data rng (size X) (iota 0 (n_epochs self)) (X, y)
  in tE uK s'E.
exists v, (last (X, y) eps).1, (last (X, y) eps).2; split.
- by rewrite s'E.
- by split=> //; rewrite mulVmx.
- have /= [s1 s2 pz] := @last_epochs_data_ok rng (size X)
                          (iota 0 (n_epochs self)) (X, y) prng (erefl _) sy.
  split=> //; first by rewrite -/eps; case: (last _ _).
    by rewrite /eps => ->.
  move=> k kE /=; rewrite /eps kE -[k.+1]addn1 iotaD add0n /= cats1.
  by rewrite epochs_data_rcons last_rcons.
- move=> s2; have /= := fit_course s2 prng sy bpos.
  by rewrite tE -/eps uK => ->; rewrite s'E.
- move=> s1 s2 Xq aE; split; first exact: predict_reads_attrs.
  by move=> vE; rewrite /predict_and_run /sess_run (predict_reads_attrs _ _ aE) vE.
Qed.

(* ----- singular and not positive definite -------------------------------- *)








(** X1: a fit call that raises leaves the fitted attributes K_invf, Xf,
    yf as they were, but not the variables: they have been re-initialized
    and possibly trained, whatever the session held before.  predict
    afterwards still builds its tensors from the old triple, and sess.run
    evaluates them at the variables the failed fit left: the mean is
    K*(v') K_invf yf and the variance amp(v')^2 - sum_j (K*(v')
    K_invf)[i,j] K*(v')[i,j], with the old K_invf and the new variable
    values v'.  On an object never fitted, prediction still raises
    AttributeError. *)
Theorem failed_fit_keeps_fitted_state self rng X y s (ex : exn) :
  (fit tf_log self rng X y s).2 = Raise ex ->
  let s' := (fit tf_log self rng X y s).1 in
  [/\ attrs s' = attrs s,
      forall s2, sess_vars (fit tf_log self rng X y s2).1 = sess_vars s',
      exists2 v', sess_vars s' = Some v'
        & forall f Xq, attrs s = Some f -> size (yf f) = size (Xf f) ->
            exists y_pred var,
              [/\ predict_and_run self s' Xq = Ok (y_pred, var),
                  y_pred
                  = covariance (kernel self) v' Xq (Xf f) *m K_invf f
                      *m col_of_seq (size (Xf f)) (yf f)
                & forall i,
                    var i 0
                    = amp v' ^+ 2
                      - \sum_j (covariance (kernel self) v' Xq (Xf f)
                                  *m K_invf f) i j
                               * covariance (kernel self) v' Xq (Xf f) i j]
    & attrs s = None ->
      forall Xq, predict_and_run self s' Xq = Raise AttributeError].
Proof.
move=> rE /=; have aE := fit_raise_keeps_attrs rE; split=> //.
- by move=> s2; have [_ -> _] := fit_prior_state tf_log self rng X y s2 s.
- have [v' [sv _]] := @fit_vars_sat _ _ tf_log (fun=> True) self rng X y s
                        I (fun _ _ _ _ _ _ => I).
  exists v' => // f Xq fs sy.
  have fs' : attrs (fit tf_log self rng X y s).1 = Some f by rewrite aE.
  have [y_pred [var [pE /(_ v') /= [yE vE]]]] := predict_spec self Xq fs' sy.
  exists (y_pred v'), (var v'); split=> //.
  by rewrite /predict_and_run pE /= /sess_run sv.
- by move=> an Xq; rewrite /predict_and_run /predict aE an.
Qed.

End FitCourse.

(* ===================================================================== *)
(* The course of a fit on the sample models.                             *)
(* ===================================================================== *)


(* fit returns on the one-epoch sample model *)
Lemma one_epoch_fit_returns s :
  fit sample_log one_epoch_gp reversing_source sample_X sample_y s
  = ((fit sample_log one_epoch_gp reversing_source sample_X sample_y s).1,
     Ok tt).
Proof.
have [s' ->] //:
  exists s', fit sample_log one_epoch_gp reversing_source sample_X sample_y s
             = (s', Ok tt).
apply: (@step_fit_returns _ _ _ _ (1 / 100%:R)) => //.
- by move=> ls a; apply: constant_kernel_psd.
- exact: reversing_source_ok.
Qed.

Lemma fit_shuffles_jointly_witness :
  let self := one_epoch_gp in
  let rng := reversing_source in
  let X := sample_X in
  let y := sample_y in
  let s := new_state rat 1 in
  let s' := (fit sample_log self rng X y s).1 in
  let N := size X in
  let b := batch_size self in
  [/\ permutation_source rng, size y = size X,
      fit sample_log self rng X y s = (s', Ok tt)
    & exists epochs : seq (seq 'rV[rat]_1 * seq rat),
        [/\ size epochs = n_epochs self,
            forall i, (i < n_epochs self)%N ->
              let before := nth (X, y) ((X, y) :: epochs) i in
              let after := nth (X, y) epochs i in
              let shuffle := rng i N in
              [/\ shuffle_the_data shuffle before.1 before.2 = Ok after,
                  size after.1 = N /\ size after.2 = N,
                  forall k, (k < N)%N ->
                    nth 0 after.1 k = nth 0 before.1 (nth 0%N shuffle k)
                    /\ nth 0 after.2 k = nth 0 before.2 (nth 0%N shuffle k),
                  zip after.1 after.2
                  = [seq nth (0, 0) (zip before.1 before.2) j | j <- shuffle]
                & perm_eq after.1 before.1
                  /\ perm_eq (zip after.1 after.2) (zip before.1 before.2)],
            sess_steps s'
            = sess_steps s
              ++ flatten [seq minibatches b (N %/ b) e | e <- epochs]
          & exists v,
              attrs s'
              = Some (Fitted (last (X, y) epochs).1 (last (X, y) epochs).2
                        (invmx (K self v (last (X, y) epochs).1)))]].
Proof.
move=> self rng X y s s' N b.
have prng : permutation_source rng by exact: reversing_source_ok.
have sy : size y = size X by [].
have fE : fit sample_log self rng X y s = (s', Ok tt).
  exact: one_epoch_fit_returns.
split; last first.
  exact: (fit_shuffles_jointly prng sy fE).
all: by [].
Defined.

Lemma fit_caches_fitted_state_witness :
  let self := one_epoch_gp in
  let rng := reversing_source in
  let X := sample_X in
  let y := sample_y in
  let s := new_state rat 1 in
  let s' := (fit sample_log self rng X y s).1 in
  let N := size X in
  [/\ permutation_source rng, size y = size X,
      fit sample_log self rng X y s = (s', Ok tt)
    & exists v Xn yn,
        [/\ sess_vars s' = Some v
            /\ attrs s' = Some (Fitted Xn yn (invmx (K self v Xn))),
            K self v Xn \in unitmx
            /\ invmx (K self v Xn) *m K self v Xn = 1%:M,
            [/\ (Xn, yn)
                = last (X, y)
                    (epochs_data rng N (iota 0 (n_epochs self)) (X, y)),
                size Xn = N /\ size yn = N,
                perm_eq (zip Xn yn) (zip X y),
                n_epochs self = 0%N -> Xn = X /\ yn = y
              & forall k, n_epochs self = k.+1 ->
                  let before :=
                    last (X, y) (epochs_data rng N (iota 0 k) (X, y)) in
                  Xn = [seq nth 0 before.1 i | i <- rng k N]
                  /\ yn = [seq nth 0 before.2 i | i <- rng k N]],
            forall s2,
              (fit sample_log self rng X y s2).2 = Ok tt
              /\ attrs (fit sample_log self rng X y s2).1 = attrs s'
          & forall s1 s2 Xq,
              attrs s1 = attrs s2 ->
              predict self s1 Xq = predict self s2 Xq
              /\ (sess_vars s1 = sess_vars s2 ->
                  predict_and_run self s1 Xq = predict_and_run self s2 Xq)]].
Proof.
move=> self rng X y s s' N.
have prng : permutation_source rng by exact: reversing_source_ok.
have sy : size y = size X by [].
have fE : fit sample_log self rng X y s = (s', Ok tt).
  exact: one_epoch_fit_returns.
split; last first.
  exact: (fit_caches_fitted_state prng sy fE).
all: by [].
Defined.

(* One epoch with the reversing permutation: fit returns and the arrays
   it stores are X and y reversed, not X and y. *)
Lemma fit_caches_shuffled_arrays :
  let r := fit sample_log one_epoch_gp reversing_source sample_X sample_y
             (new_state rat 1) in
  r.2 = Ok tt
  /\ exists f,
       [/\ attrs r.1 = Some f, Xf f = rev sample_X /\ yf f = rev sample_y,
           Xf f <> sample_X & yf f <> sample_y].
Proof.
move=> r; have fE := one_epoch_fit_returns (new_state rat 1).
split; first by rewrite /r fE.
have sy : size sample_y = size sample_X by [].
have /= [v [_ _ _ s'E]] := fit_ok_course reversing_source_ok sy fE.
eexists; split; first by rewrite /r s'E.
- by [].
- move=> /(congr1 (fun l => nth 0 l 0)) /= /matrixP /(_ 0 0).
  by rewrite !mxE => /eqP; rewrite eqr_nat.
- by move=> /(congr1 (fun l => nth 0 l 0)) /= /eqP; rewrite eqr_nat.
Qed.


Lemma failed_fit_keeps_fitted_state_witness :
  let self := noiseless_gp in
  let rng := reversing_source in
  let X := duplicate_X in
  let y := duplicate_y in
  let s := sample_state in
  let s' := (fit sample_log self rng X y s).1 in
  (fit sample_log self rng X y s).2 = Raise InvalidArgument
  /\ [/\ attrs s' = attrs s,
         forall s2, sess_vars (fit sample_log self rng X y s2).1
                    = sess_vars s',
         exists2 v', sess_vars s' = Some v'
           & forall f Xq, attrs s = Some f -> size (yf f) = size (Xf f) ->
               exists y_pred var,
                 [/\ predict_and_run self s' Xq = Ok (y_pred, var),
                     y_pred
                     = covariance (kernel self) v' Xq (Xf f) *m K_invf f
                         *m col_of_seq (size (Xf f)) (yf f)
                   & forall i,
                       var i 0
                       = amp v' ^+ 2
                         - \sum_j (covariance (kernel self) v' Xq (Xf f)
                                     *m K_invf f) i j
                                  * covariance (kernel self) v' Xq (Xf f) i j]
       & attrs s = None ->
         forall Xq, predict_and_run self s' Xq = Raise AttributeError].
Proof.
move=> self rng X y s s'.
have fE : (fit sample_log self rng X y s).2 = Raise InvalidArgument.
  by rewrite noiseless_fit_raises.
split; first by [].
exact: (failed_fit_keeps_fitted_state fE).
Defined.
